(** * The [find] command of restic: tree search with a not-found cache and
      a streaming, snapshot-grouped output sink.

    Shallow embedding of [cmds/restic/cmd_find.go].  The search engine
    ([findInTree], [findInSnapshot], [runFind]) and the output sink
    ([PrintJSON], [PrintNormal], [Print], [Finish]) are translated
    function by function.  Everything the file calls but does not define
    (Go's [path/filepath], [strings], [encoding/json], [time] and [fmt],
    and the helpers of other files of the command) is gathered in the
    interface [Lib]; a concrete instance is given further down and is used
    for the worked examples only. *)

From Stdlib Require Import ZArith Ascii String List Lia Bool.
From stdpp Require Import base decidable option list gmap pretty.

Local Open Scope string_scope.
Local Open Scope Z_scope.
Local Open Scope list_scope.

(** ** Characters and strings that Go writes with escapes *)

Definition nl : string := String (ascii_of_nat 10) EmptyString.
Definition dq : string := String (ascii_of_nat 34) EmptyString.
Definition Separator : ascii := ascii_of_nat 47.
Definition sep : string := String Separator EmptyString.

(** ** Data model *)

(** [restic.ID] is a SHA-256 value; it is kept as the number it denotes. *)
Abbreviation ID := N (only parsing).

(** [time.Time] is kept as the offset of the instant from Go's zero time
    (January 1, year 1, 00:00:00 UTC), in nanoseconds. *)
Abbreviation Time := Z (only parsing).

Definition IsZero (t : Time) : bool := t =? 0.
Definition Before (t u : Time) : bool := t <? u.
Definition After (t u : Time) : bool := u <? t.

(** The fields of [restic.Node] the command reads. *)
Record Node := mkNode {
  Name : string;
  Type_ : string;              (* [Type], a reserved word here *)
  Mode : N;
  ModTime : Time;
  Subtree : option ID          (* [*restic.ID], [None] is the nil pointer *)
}.

Record Tree := mkTree { Nodes : list Node }.

(** A [*restic.Snapshot].  The sink compares snapshots by pointer, so the
    address of the object is part of the model. *)
Record Snapshot := mkSnapshot {
  sn_addr : nat;
  sn_ID : string;              (* what [sn.ID()] prints *)
  sn_Tree : option ID          (* [sn.Tree], a [*restic.ID] *)
}.

Inductive error :=
| ErrBadPattern
| Fatal (msg : string)
| ErrOther (msg : string).

Definition Error (e : error) : string :=
  match e with
  | ErrBadPattern => "syntax error in pattern"
  | Fatal msg => msg
  | ErrOther msg => msg
  end.

(** A Go result pair [(value, err)]. *)
Inductive res (A : Type) :=
| Ok (a : A)
| Err (e : error).
Arguments Ok {A} a.
Arguments Err {A} e.

(** [restic.Repository], as far as [find] uses it. *)
Record Repository := mkRepository { LoadTree : ID -> res Tree }.

Record findPattern := mkFindPattern {
  oldest : Time;
  newest : Time;
  pattern : string;
  ignoreCase : bool
}.

Record FindOptions := mkFindOptions {
  Oldest : string;
  Newest : string;
  Snapshots : list string;
  CaseInsensitive : bool;
  optListLong : bool;
  Host : string;
  Paths : list string;
  Tags : list string
}.

Record GlobalOptions := mkGlobalOptions {
  NoLock : bool;
  optJSON : bool
}.

Record statefulOutput := mkStatefulOutput {
  ListLong : bool;
  JSON : bool;
  inuse : bool;
  newsn : option Snapshot;
  oldsn : option Snapshot;
  hits : Z
}.

Record Finder := mkFinder {
  repo : Repository;
  pat : findPattern;
  out : statefulOutput;
  notfound : gset N
}.

(** What a run does to the outside, in order.  [EvLoadTree] and [EvPrint]
    record calls ([repo.LoadTree] and [f.out.Print], the latter with the
    snapshot the sink was told to attribute the record to); the other
    three are the texts handed to [Printf], [Verbosef] and [Warnf]. *)
Inductive Event :=
| EvLoadTree (id : ID)
| EvPrint (prefix : string) (node : Node) (sn : option Snapshot)
| EvPrintf (s : string)
| EvVerbosef (s : string)
| EvWarnf (s : string).

(** ** Go's [int] *)

Definition wrap64 (z : Z) : Z := (z + 2 ^ 63) mod 2 ^ 64 - 2 ^ 63.

(** ** [path/filepath]: [Clean] and [Join] on Unix

    Modelled from the spec: [filepath.Join] belongs to Go's library and is
    not under src/; the spec only says that the path prefix is joined to
    the entry name.  The definition follows the documented rules of
    [Clean]: runs of separators collapse, [.] elements vanish, [..]
    removes the element before it and disappears at the root, and an
    empty result is [.]. *)

Fixpoint splitSep (s : string) : list string :=
  match s with
  | EmptyString => [EmptyString]
  | String c s' =>
      if Ascii.eqb c Separator then EmptyString :: splitSep s'
      else match splitSep s' with
           | [] => [String c EmptyString]
           | w :: ws => String c w :: ws
           end
  end.

Definition rooted (s : string) : bool :=
  match s with
  | String c _ => Ascii.eqb c Separator
  | EmptyString => false
  end.

(** One element of the path against the elements kept so far (last
    first). *)
Definition cleanStep (isRooted : bool) (stack : list string) (elem : string)
  : list string :=
  if String.eqb elem EmptyString then stack
  else if String.eqb elem "." then stack
  else if String.eqb elem ".." then
    match stack with
    | top :: below =>
        if String.eqb top ".." then elem :: stack else below
    | [] => if isRooted then [] else [elem]
    end
  else elem :: stack.

Fixpoint joinSep (elems : list string) : string :=
  match elems with
  | [] => EmptyString
  | [e] => e
  | e :: rest => e +:+ sep +:+ joinSep rest
  end.

Definition Clean (path : string) : string :=
  let stack := fold_left (cleanStep (rooted path)) (splitSep path) [] in
  if rooted path then sep +:+ joinSep (rev stack)
  else match stack with
       | [] => "."
       | _ => joinSep (rev stack)
       end.

Definition Join (a b : string) : string :=
  if String.eqb a EmptyString then
    if String.eqb b EmptyString then EmptyString else Clean b
  else Clean (a +:+ sep +:+ b).

(** ** The library interface *)

Class Lib := {
  (** [filepath.Match pattern name] *)
  Match : string -> string -> res bool;
  (** [strings.ToLower] *)
  ToLower : string -> string;
  (** [json.Marshal] of the anonymous struct of [PrintJSON]: the path, the
      permission string and the node. *)
  Marshal : string -> string -> Node -> res string;
  (** [os.FileMode.String] *)
  ModeString : N -> string;
  (** [formatNode] of the [ls] command *)
  formatNode : string -> Node -> bool -> string;
  (** [fmt.Sprintf] of a format without operands, of [%q] and of [%d] *)
  Sprintf0 : string -> string;
  Quote : string -> string;
  Itoa : Z -> string;
  (** [time.ParseInLocation layout value time.Local] *)
  ParseInLocation : string -> string -> res Time;
  (** [OpenRepository], [lockRepo], [repo.LoadIndex] and the snapshots
      that [FindFilteredSnapshots] sends, in order. *)
  OpenRepository : GlobalOptions -> res Repository;
  lockRepo : Repository -> option error;
  LoadIndex : Repository -> option error;
  FindFilteredSnapshots :
    Repository -> string -> list string -> list string -> list string ->
    list Snapshot
}.

(** ** The output sink *)

Definition set_out (f : Finder) (o : statefulOutput) : Finder :=
  mkFinder (repo f) (pat f) o (notfound f).

Definition set_notfound (f : Finder) (s : gset N) : Finder :=
  mkFinder (repo f) (pat f) (out f) s.

Definition set_newsn (s : statefulOutput) (sn : option Snapshot)
  : statefulOutput :=
  mkStatefulOutput (ListLong s) (JSON s) (inuse s) sn (oldsn s) (hits s).

Definition set_inuse (s : statefulOutput) (b : bool) : statefulOutput :=
  mkStatefulOutput (ListLong s) (JSON s) b (newsn s) (oldsn s) (hits s).

Definition set_oldsn (s : statefulOutput) (sn : option Snapshot)
  : statefulOutput :=
  mkStatefulOutput (ListLong s) (JSON s) (inuse s) (newsn s) sn (hits s).

Definition set_hits (s : statefulOutput) (h : Z) : statefulOutput :=
  mkStatefulOutput (ListLong s) (JSON s) (inuse s) (newsn s) (oldsn s) h.

(** [s.newsn != s.oldsn] compares two pointers. *)
Definition same_sn (a b : option Snapshot) : bool :=
  match a, b with
  | None, None => true
  | Some x, Some y => Nat.eqb (sn_addr x) (sn_addr y)
  | _, _ => false
  end.

Section Sink.
Context `{Lib}.

(** The text that closes a group: the end of its list of matches, its
    hit count and the id of its snapshot. *)
Definition closeGroup (h : Z) (sn : Snapshot) : string :=
  "]," +:+ dq +:+ "hits" +:+ dq +:+ ":" +:+ Itoa h +:+ ","
       +:+ dq +:+ "snapshot" +:+ dq +:+ ":" +:+ Quote (sn_ID sn) +:+ "}".

(** The text that opens a group and its list of matches. *)
Definition openGroup : string := "{" +:+ dq +:+ "matches" +:+ dq +:+ ":[".

Definition PrintJSON (s : statefulOutput) (prefix : string) (node : Node)
  : statefulOutput * list Event :=
  match Marshal (Join prefix (Name node)) (ModeString (Mode node)) node with
  | Err err => (s, [EvWarnf ("Marshall failed: " +:+ Error err +:+ nl)])
  | Ok b =>
      let ev1 := if inuse s then [] else [EvPrintf "["] in
      let s1 := set_inuse s true in
      let '(s2, ev2) :=
        if negb (same_sn (newsn s1) (oldsn s1)) then
          (set_hits (set_oldsn s1 (newsn s1)) 0,
           match oldsn s1 with
           | Some o => [EvPrintf (closeGroup (hits s1) o +:+ ",")]
           | None => []
           end ++ [EvPrintf openGroup])
        else (s1, []) in
      let ev3 := if 0 <? hits s2 then [EvPrintf ","] else [] in
      (set_hits s2 (wrap64 (hits s2 + 1)),
       ev1 ++ ev2 ++ ev3 ++ [EvPrintf (Sprintf0 b)])
  end.

(** [None] is the nil dereference of [s.oldsn.ID()] when [s.newsn] is
    nil. *)
Definition PrintNormal (s : statefulOutput) (prefix : string) (node : Node)
  : option (statefulOutput * list Event) :=
  let line := [EvPrintf (Sprintf0 (formatNode prefix node (ListLong s) +:+ nl))] in
  if negb (same_sn (newsn s) (oldsn s)) then
    let ev1 := match oldsn s with
               | Some _ => [EvVerbosef nl]
               | None => []
               end in
    match newsn s with
    | Some n =>
        Some (set_oldsn s (newsn s),
              ev1 ++ [EvVerbosef ("Found matching entries in snapshot "
                                    +:+ sn_ID n +:+ nl)] ++ line)
    | None => None
    end
  else Some (s, line).

Definition Print (s : statefulOutput) (prefix : string) (node : Node)
  : option (statefulOutput * list Event) :=
  if JSON s then Some (PrintJSON s prefix node)
  else PrintNormal s prefix node.

Definition Finish (s : statefulOutput) : list Event :=
  if JSON s then
    match oldsn s with
    | Some o => [EvPrintf (closeGroup (hits s) o)]
    | None => []
    end ++
    (if inuse s then [EvPrintf ("]" +:+ nl)] else [EvPrintf ("[]" +:+ nl)])
  else [].

End Sink.

(** ** The search engine *)

(** Why a call stops early: it returns an error, dereferences a nil
    pointer, or (in the model only) exhausts its recursion budget. *)
Inductive abort :=
| Failed (e : error)
| Panicked
| OutOfFuel.

(** A method of [*Finder]: it reads and updates the finder, acts on the
    outside, and either yields a value or stops early. *)
Definition M (A : Type) : Type :=
  Finder -> (A + abort) * Finder * list Event.

#[global] Instance M_ret : MRet M := fun A a f => (inl a, f, []).

#[global] Instance M_bind : MBind M := fun A B k m f =>
  match m f with
  | (inl a, f1, ev1) =>
      let '(r, f2, ev2) := k a f1 in (r, f2, ev1 ++ ev2)
  | (inr x, f1, ev1) => (inr x, f1, ev1)
  end.

Definition stop {A} (x : abort) : M A := fun f => (inr x, f, []).
Definition emit (ev : list Event) : M unit := fun f => (inl tt, f, ev).
Definition get : M Finder := fun f => (inl f, f, []).
Definition put (f' : Finder) : M unit := fun _ => (inl tt, f', []).

(** A Go call [v, err := ...; if err != nil { return err }]. *)
Definition try {A} (r : res A) : M A :=
  match r with
  | Ok a => mret a
  | Err err => stop (Failed err)
  end.

(** What the loop body decides for one entry: the name does not match,
    the name matches but the time window rejects the entry ([continue]),
    or the entry is a match. *)
Inductive verdict :=
| NoMatch
| Skipped
| Accepted.

Section Engine.
Context `{Lib}.

(** Lines 199 to 204: the name test. *)
Definition matchName (p : findPattern) (node : Node) : res bool :=
  let name := if ignoreCase p then ToLower (Name node) else Name node in
  Match (pattern p) name.

(** Lines 199 to 223: the name test, then the time window. *)
Definition testEntry (p : findPattern) (node : Node) : res verdict :=
  match matchName p node with
  | Err err => Err err
  | Ok m =>
      if m then
        if negb (IsZero (oldest p)) && Before (ModTime node) (oldest p)
        then Ok Skipped
        else if negb (IsZero (newest p)) && After (ModTime node) (newest p)
        then Ok Skipped
        else Ok Accepted
      else Ok NoMatch
  end.

(** [f.out.Print(prefix, node)] *)
Definition callPrint (prefix : string) (node : Node) : M unit :=
  f ← get;
  emit [EvPrint prefix node (newsn (out f))];;
  match Print (out f) prefix node with
  | Some (o, ev) => put (set_out f o);; emit ev
  | None => stop Panicked
  end.

(** The recursion into a node of type [dir], with the recursive call
    abstracted as [rec]; a nil [node.Subtree] is dereferenced. *)
Definition descend (rec : ID -> string -> M unit) (prefix : string)
    (node : Node) : M unit :=
  if String.eqb (Type_ node) "dir" then
    match Subtree node with
    | Some sub => rec sub (Join prefix (Name node))
    | None => stop Panicked
    end
  else mret tt.

(** [for _, node := range tree.Nodes { ... }]; [found] is the local
    variable of that name. *)
Fixpoint scanNodes (rec : ID -> string -> M unit) (prefix : string)
    (nodes : list Node) (found : bool) : M bool :=
  match nodes with
  | [] => mret found
  | node :: rest =>
      f ← get;
      v ← try (testEntry (pat f) node);
      match v with
      | Skipped => scanNodes rec prefix rest found
      | Accepted =>
          callPrint prefix node;;
          descend rec prefix node;;
          scanNodes rec prefix rest true
      | NoMatch =>
          descend rec prefix node;;
          scanNodes rec prefix rest found
      end
  end.

Fixpoint findInTree (fuel : nat) (treeID : ID) (prefix : string) : M unit :=
  match fuel with
  | O => stop OutOfFuel
  | S fuel' =>
      f ← get;
      if decide (treeID ∈ notfound f) then mret tt
      else
        emit [EvLoadTree treeID];;
        tree ← try (LoadTree (repo f) treeID);
        found ← scanNodes (findInTree fuel') prefix (Nodes tree) false;
        if found : bool then mret tt
        else
          f' ← get;
          put (set_notfound f' ({[treeID]} ∪ notfound f'))
  end.

Definition findInSnapshot (fuel : nat) (sn : Snapshot) : M unit :=
  f ← get;
  put (set_out f (set_newsn (out f) (Some sn)));;
  match sn_Tree sn with
  | Some root => findInTree fuel root sep
  | None => stop Panicked
  end.

(** [for sn := range FindFilteredSnapshots(...)] *)
Fixpoint findInSnapshots (fuel : nat) (sns : list Snapshot) : M unit :=
  match sns with
  | [] => mret tt
  | sn :: rest => findInSnapshot fuel sn;; findInSnapshots fuel rest
  end.

Definition timeFormats : list string :=
  [ "2006-01-02";
    "2006-01-02 15:04";
    "2006-01-02 15:04:05";
    "2006-01-02 15:04:05 -0700";
    "2006-01-02 15:04:05 MST";
    "02.01.2006";
    "02.01.2006 15:04";
    "02.01.2006 15:04:05";
    "02.01.2006 15:04:05 -0700";
    "02.01.2006 15:04:05 MST";
    "Mon Jan 2 15:04:05 -0700 MST 2006" ].

Fixpoint parseTimeIn (formats : list string) (str : string) : res Time :=
  match formats with
  | [] => Err (Fatal ("unable to parse time: " +:+ Quote str))
  | fmt :: rest =>
      match ParseInLocation fmt str with
      | Ok t => Ok t
      | Err _ => parseTimeIn rest str
      end
  end.

Definition parseTime (str : string) : res Time :=
  parseTimeIn timeFormats str.

(** Lines 250 to 271 of [runFind]: the argument count and the search
    criteria. *)
Definition makePattern (opts : FindOptions) (args : list string)
  : res findPattern :=
  match args with
  | [arg] =>
      let pat :=
        if CaseInsensitive opts
        then mkFindPattern 0 0 (ToLower arg) true
        else mkFindPattern 0 0 arg false in
      match
        (if String.eqb (Oldest opts) EmptyString then Ok (oldest pat)
         else parseTime (Oldest opts))
      with
      | Err err => Err err
      | Ok o =>
          match
            (if String.eqb (Newest opts) EmptyString then Ok (newest pat)
             else parseTime (Newest opts))
          with
          | Err err => Err err
          | Ok n => Ok (mkFindPattern o n (pattern pat) (ignoreCase pat))
          end
      end
  | _ => Err (Fatal "wrong number of arguments")
  end.

(** Lines 273 to 288: the repository, its lock and its index. *)
Definition openAndLock (gopts : GlobalOptions) : res Repository :=
  match OpenRepository gopts with
  | Err err => Err err
  | Ok repo =>
      match (if NoLock gopts then None else lockRepo repo) with
      | Some err => Err err
      | None =>
          match LoadIndex repo with
          | Some err => Err err
          | None => Ok repo
          end
      end
  end.

(** The finder of lines 293 to 298.  The source reads the JSON switch
    from the global [globalOptions], which is also what the command
    passes as [gopts]. *)
Definition newFinder (repo : Repository) (pat : findPattern)
    (opts : FindOptions) (gopts : GlobalOptions) : Finder :=
  mkFinder repo pat
    (mkStatefulOutput (optListLong opts) (optJSON gopts) false None None 0)
    ∅.

(** [runFind]; the deferred [unlockRepo] and [cancel] have no part in
    what the claims are about and are left out.  An error of the
    traversal returns without [Finish]. *)
Definition runFind (fuel : nat) (opts : FindOptions) (gopts : GlobalOptions)
    (args : list string) : (unit + abort) * list Event :=
  match makePattern opts args with
  | Err err => (inr (Failed err), [])
  | Ok pat =>
      match openAndLock gopts with
      | Err err => (inr (Failed err), [])
      | Ok repo =>
          let f := newFinder repo pat opts gopts in
          let sns := FindFilteredSnapshots repo (Host opts) (Tags opts)
                       (Paths opts) (Snapshots opts) in
          match findInSnapshots fuel sns f with
          | (inl _, f', ev) => (inl tt, ev ++ Finish (out f'))
          | (inr x, _, ev) => (inr x, ev)
          end
      end
  end.

End Engine.

(** ** A concrete library

    Modelled from the spec: [filepath.Match], [strings.ToLower],
    [json.Marshal], [fmt] and [formatNode] are not under src/.  The
    matcher implements the shell-glob syntax the spec names ([*], [?],
    character classes, backslash escapes, no recursive [**]) on ASCII
    names and rejects a malformed pattern whatever the name is.  The
    theorems below hold for every [Lib]; this instance only serves the
    worked examples. *)

Inductive token :=
| TStar
| TAny
| TLit (c : ascii)
| TClass (negated : bool) (ranges : list (ascii * ascii)).

Definition chr (n : nat) : ascii := ascii_of_nat n.
Definition isChr (n : nat) (c : ascii) : bool := Ascii.eqb c (chr n).

(** One possibly escaped character of a class; the class must go on
    after it. *)
Definition getEsc (chunk : list ascii) : res (ascii * list ascii) :=
  match chunk with
  | [] => Err ErrBadPattern
  | c :: rest =>
      if isChr 45 c || isChr 93 c then Err ErrBadPattern
      else
        let r := if isChr 92 c then
                   match rest with
                   | [] => Err ErrBadPattern
                   | c' :: rest' => Ok (c', rest')
                   end
                 else Ok (c, rest) in
        match r with
        | Ok (_, []) => Err ErrBadPattern
        | _ => r
        end
  end.

Fixpoint parseRanges (fuel : nat) (chunk : list ascii) (nrange : nat)
    (acc : list (ascii * ascii)) : res (list (ascii * ascii) * list ascii) :=
  match fuel with
  | O => Err ErrBadPattern
  | S fuel' =>
      match chunk, nrange with
      | c :: rest, S _ =>
          if isChr 93 c then Ok (rev acc, rest)
          else parseRange fuel' chunk nrange acc
      | _, _ => parseRange fuel' chunk nrange acc
      end
  end
with parseRange (fuel : nat) (chunk : list ascii) (nrange : nat)
    (acc : list (ascii * ascii)) : res (list (ascii * ascii) * list ascii) :=
  match fuel with
  | O => Err ErrBadPattern
  | S fuel' =>
      match getEsc chunk with
      | Err err => Err err
      | Ok (lo, chunk1) =>
          match chunk1 with
          | c :: rest =>
              if isChr 45 c then
                match getEsc rest with
                | Err err => Err err
                | Ok (hi, chunk2) =>
                    parseRanges fuel' chunk2 (S nrange) ((lo, hi) :: acc)
                end
              else parseRanges fuel' chunk1 (S nrange) ((lo, lo) :: acc)
          | [] => Err ErrBadPattern
          end
      end
  end.

Fixpoint parsePattern (fuel : nat) (p : list ascii) : res (list token) :=
  match fuel with
  | O => Err ErrBadPattern
  | S fuel' =>
      let next (t : token) (rest : list ascii) :=
        match parsePattern fuel' rest with
        | Ok ts => Ok (t :: ts)
        | Err err => Err err
        end in
      match p with
      | [] => Ok []
      | c :: rest =>
          if isChr 42 c then next TStar rest
          else if isChr 63 c then next TAny rest
          else if isChr 92 c then
            match rest with
            | [] => Err ErrBadPattern
            | c' :: rest' => next (TLit c') rest'
            end
          else if isChr 91 c then
            let '(negated, body) :=
              match rest with
              | c' :: rest' => if isChr 94 c' then (true, rest') else (false, rest)
              | [] => (false, rest)
              end in
            match parseRanges (2 * fuel') body O [] with
            | Ok (ranges, rest') => next (TClass negated ranges) rest'
            | Err err => Err err
            end
          else next (TLit c) rest
      end
  end.

Definition inRange (c : ascii) (r : ascii * ascii) : bool :=
  (nat_of_ascii (fst r) <=? nat_of_ascii c)%nat
  && (nat_of_ascii c <=? nat_of_ascii (snd r))%nat.

Fixpoint matchTokens (ts : list token) (s : list ascii) : bool :=
  match ts with
  | [] => match s with [] => true | _ => false end
  | TStar :: ts' =>
      (fix star (s : list ascii) : bool :=
         matchTokens ts' s
         || match s with
            | [] => false
            | c :: s' => negb (Ascii.eqb c Separator) && star s'
            end) s
  | TAny :: ts' =>
      match s with
      | c :: s' => negb (Ascii.eqb c Separator) && matchTokens ts' s'
      | [] => false
      end
  | TLit c :: ts' =>
      match s with
      | d :: s' => Ascii.eqb c d && matchTokens ts' s'
      | [] => false
      end
  | TClass negated ranges :: ts' =>
      match s with
      | d :: s' => xorb negated (existsb (inRange d) ranges)
                   && matchTokens ts' s'
      | [] => false
      end
  end.

Definition globMatch (pattern name : string) : res bool :=
  let p := list_ascii_of_string pattern in
  match parsePattern (S (length p)) p with
  | Ok ts => Ok (matchTokens ts (list_ascii_of_string name))
  | Err err => Err err
  end.

Definition lowerChar (c : ascii) : ascii :=
  let n := nat_of_ascii c in
  if (65 <=? n)%nat && (n <=? 90)%nat then ascii_of_nat (n + 32) else c.

Fixpoint asciiToLower (s : string) : string :=
  match s with
  | EmptyString => EmptyString
  | String c s' => String (lowerChar c) (asciiToLower s')
  end.

(** [encoding/json] renders a [time.Time] only when its year is within
    0 and 9999 and fails otherwise; the bounds are in nanoseconds from
    the zero time. *)
Definition marshalableTime (t : Time) : bool :=
  (- (366 * 86400 * 1000000000) <=? t) && (t <? 3652059 * 86400 * 1000000000).

Definition quoteString (s : string) : string := dq +:+ s +:+ dq.

Definition jsonMarshal (path perms : string) (node : Node) : res string :=
  if marshalableTime (ModTime node) then
    Ok ("{" +:+ quoteString "path" +:+ ":" +:+ quoteString path +:+ ","
            +:+ quoteString "permissions" +:+ ":" +:+ quoteString perms +:+ ","
            +:+ quoteString "type" +:+ ":" +:+ quoteString (Type_ node) +:+ "}")
  else Err (ErrOther "Time.MarshalJSON: year outside of range [0,9999]").

(** [fmt.Sprintf] of a format without operands: [%%] is a percent sign
    and any other verb has no operand to print. *)
Fixpoint sprintf0 (s : string) : string :=
  match s with
  | String c rest =>
      if isChr 37 c then
        match rest with
        | String d rest' =>
            if isChr 37 d then String d (sprintf0 rest')
            else "%!" +:+ String d "(MISSING)" +:+ sprintf0 rest'
        | EmptyString => "%!(NOVERB)"
        end
      else String c (sprintf0 rest)
  | EmptyString => EmptyString
  end.

Definition lookupTime (table : list (string * string * Time))
    (layout value : string) : res Time :=
  match
    find (fun e => String.eqb (fst (fst e)) layout
                   && String.eqb (snd (fst e)) value) table
  with
  | Some e => Ok (snd e)
  | None => Err (ErrOther "parsing time: cannot parse")
  end.

Definition storeOf (objects : gmap N Tree) : Repository :=
  mkRepository (fun id =>
    match objects !! id with
    | Some tree => Ok tree
    | None => Err (ErrOther "tree not found in repository")
    end).

(** The library over a repository with the given tree objects, a stream
    of snapshots and the clock library's answers. *)
Definition goLib (objects : gmap N Tree) (sns : list Snapshot)
    (times : list (string * string * Time)) : Lib :=
  {| Match := globMatch;
     ToLower := asciiToLower;
     Marshal := jsonMarshal;
     ModeString := fun m => pretty m;
     formatNode := fun prefix node long =>
       if long then pretty (Mode node) +:+ " " +:+ Join prefix (Name node)
       else Join prefix (Name node);
     Sprintf0 := sprintf0;
     Quote := quoteString;
     Itoa := fun z => pretty z;
     ParseInLocation := lookupTime times;
     OpenRepository := fun _ => Ok (storeOf objects);
     lockRepo := fun _ => None;
     LoadIndex := fun _ => None;
     FindFilteredSnapshots := fun _ _ _ _ _ => sns |}.

(** ** Vocabulary of the statements *)

(** [R] relates the finder before a call, what the call did, and the
    finder after it. *)
Definition holds {A} (R : Finder -> list Event -> Finder -> Prop)
    (f : Finder) (x : (A + abort) * Finder * list Event) : Prop :=
  R f x.2 x.1.2.

Definition isLoad (e : Event) : bool :=
  match e with
  | EvLoadTree _ => true
  | _ => false
  end.

Definition isPrint (e : Event) : bool :=
  match e with
  | EvPrint _ _ _ => true
  | _ => false
  end.

(** The texts written to the result stream, in order. *)
Fixpoint printed (ev : list Event) : list string :=
  match ev with
  | [] => []
  | EvPrintf s :: rest => s :: printed rest
  | _ :: rest => printed rest
  end.

(** How often [repo.LoadTree] was called on [id]. *)
Fixpoint loads (id : ID) (ev : list Event) : nat :=
  match ev with
  | [] => O
  | EvLoadTree id' :: rest =>
      if N.eqb id id' then S (loads id rest) else loads id rest
  | _ :: rest => loads id rest
  end.

(** The conversation between the engine and the sink during a traversal:
    the engine loads trees and hands matches to [Print]; the sink changes
    state only in [Print], and all output comes from [Print]. *)
Inductive SinkRun `{Lib} : statefulOutput -> list Event -> statefulOutput -> Prop :=
| SinkRun_nil o :
    SinkRun o [] o
| SinkRun_load o id ev o' :
    SinkRun o ev o' ->
    SinkRun o (EvLoadTree id :: ev) o'
| SinkRun_print o prefix node o1 pev ev o' :
    Print o prefix node = Some (o1, pev) ->
    SinkRun o1 ev o' ->
    SinkRun o (EvPrint prefix node (newsn o) :: pev ++ ev) o'
| SinkRun_panic o prefix node ev o' :
    Print o prefix node = None ->
    SinkRun o ev o' ->
    SinkRun o (EvPrint prefix node (newsn o) :: ev) o'.

(** What every traversal keeps: the repository and the criteria are
    untouched, the not-found set only grows, and the sink is driven as
    [SinkRun] says. *)
Definition traversal `{Lib} (f : Finder) (ev : list Event) (f' : Finder)
  : Prop :=
  repo f' = repo f /\ pat f' = pat f /\ notfound f ⊆ notfound f' /\
  SinkRun (out f) ev (out f').

(** ** Worked examples: the trees of the spec's scenarios *)

Definition day (n : Z) : Time := n * 86400 * 1000000000.
Definition date_2020_01_01 : Time := day 737424.
Definition date_2020_06_01 : Time := day 737576.
Definition date_2021_06_01 : Time := day 737941.

Definition file (name : string) (mtime : Time) : Node :=
  mkNode name "file" 420 mtime None.
Definition dir (name : string) (mtime : Time) (sub : ID) : Node :=
  mkNode name "dir" 493 mtime (Some sub).

(** [T1 = {a.txt, sub -> T2}], [T2 = {b.txt}]; tree 3 only holds a
    directory; tree 4 is empty. *)
Definition ex_T2 : Tree := mkTree [file "b.txt" date_2021_06_01].
Definition ex_T1 : Tree :=
  mkTree [file "a.txt" date_2020_01_01; dir "sub" date_2020_01_01 2%N].
Definition ex_T3 : Tree := mkTree [dir "sub" date_2020_01_01 2%N].
Definition ex_T4 : Tree := mkTree [].
Definition ex_T5 : Tree :=
  mkTree [dir "build" date_2020_01_01 6%N].
Definition ex_T6 : Tree := mkTree [file "build.log" date_2021_06_01].

Definition ex_objects : gmap N Tree :=
  <[1%N := ex_T1]> (<[2%N := ex_T2]> (<[3%N := ex_T3]> (<[4%N := ex_T4]>
  (<[5%N := ex_T5]> (<[6%N := ex_T6]> ∅))))).

Definition ex_snapshot (addr : nat) (id : string) (root : ID) : Snapshot :=
  mkSnapshot addr id (Some root).

Definition ex_times : list (string * string * Time) :=
  [ ("2006-01-02", "2020-06-01", date_2020_06_01);
    ("2006-01-02", "2021-06-01", date_2021_06_01) ].

Definition ex_lib (sns : list Snapshot) : Lib := goLib ex_objects sns ex_times.

Definition ex_opts : FindOptions :=
  mkFindOptions EmptyString EmptyString [] false false EmptyString [] [].
Definition ex_opts_i : FindOptions :=
  mkFindOptions EmptyString EmptyString [] true false EmptyString [] [].
Definition ex_json : GlobalOptions := mkGlobalOptions false true.
Definition ex_text : GlobalOptions := mkGlobalOptions false false.

Definition ex_finder (p : findPattern) (json : bool) : Finder :=
  mkFinder (storeOf ex_objects) p
    (mkStatefulOutput false json false None None 0) ∅.

(** A match handed to the sink under a prefix that begins with the
    separator, and whose full path does too. *)
Definition absolutePath (e : Event) : bool :=
  match e with
  | EvPrint prefix node _ =>
      rooted prefix && rooted (Join prefix (Name node))
  | _ => true
  end.

(** The prefixes stay absolute along a traversal, and so do the reported
    paths. *)
Definition absolute `{Lib} (f : Finder) (ev : list Event) (f' : Finder)
  : Prop :=
  (repo f' = repo f /\ pat f' = pat f) /\
  Forall (fun e => absolutePath e = true) ev.

(** ** The structured document *)

(** Whether [json.Marshal] renders the match. *)
Definition marshals `{Lib} (prefix : string) (node : Node) : bool :=
  match Marshal (Join prefix (Name node)) (ModeString (Mode node)) node with
  | Ok _ => true
  | Err _ => false
  end.

(** Whether some match of the run was rendered. *)
Definition written `{Lib} (ev : list Event) : bool :=
  existsb (fun e => match e with
                    | EvPrint prefix node _ => marshals prefix node
                    | _ => false
                    end) ev.

(** The value of a Go [int] that started at zero and was incremented [n]
    times. *)
Fixpoint bump (n : nat) : Z :=
  match n with
  | O => 0
  | S k => wrap64 (bump k + 1)
  end.

(** The group that is open after the events [ev], and the number of
    records rendered into it, starting from the open group [cur] with [n]
    records: a rendered match goes to the open group when it comes from
    the same snapshot object, and opens a group of its own otherwise. *)
Fixpoint tally `{Lib} (ev : list Event) (cur : option Snapshot) (n : nat)
  : option Snapshot * nat :=
  match ev with
  | [] => (cur, n)
  | EvPrint prefix node sn :: rest =>
      if marshals prefix node then
        if same_sn sn cur then tally rest cur (S n) else tally rest sn 1%nat
      else tally rest cur n
  | _ :: rest => tally rest cur n
  end.

(** The sink in structured mode agrees with the open group [cur] and its
    [n] records. *)
Definition tracks (o : statefulOutput) (cur : option Snapshot) (n : nat)
  : Prop :=
  JSON o = true /\ oldsn o = cur /\ hits o = bump n /\
  inuse o = match cur with Some _ => true | None => false end.

(** ** Runs under a pattern that the matcher rejects *)

(** Nothing but tree loads happened, and the sink is as before up to its
    note of the current snapshot. *)
Definition quiet (f : Finder) (ev : list Event) (f' : Finder) : Prop :=
  forallb isLoad ev = true /\
  set_newsn (out f') None = set_newsn (out f) None.

(** A traversal is quiet when [filepath.Match] rejects the pattern for
    every name with the error [err]. *)
Definition quietIfRejected `{Lib} (err : error)
    (f : Finder) (ev : list Event) (f' : Finder) : Prop :=
  (repo f' = repo f /\ pat f' = pat f) /\
  ((forall name, Match (pattern (pat f)) name = Err err) -> quiet f ev f').

Definition ex_opts_oldest : FindOptions :=
  mkFindOptions "2020-06-01" EmptyString [] false false EmptyString [] [].

(** ** Shared trees *)

(** The entry is a match: its name matches and its time is in the
    window. *)
Definition accepted `{Lib} (p : findPattern) (node : Node) : bool :=
  match testEntry p node with
  | Ok Accepted => true
  | _ => false
  end.

(** The tree [id] has a match among its own entries. *)
Definition hasOwnMatch `{Lib} (r : Repository) (p : findPattern) (id : ID)
  : bool :=
  match LoadTree r id with
  | Ok tree => existsb (accepted p) (Nodes tree)
  | Err _ => false
  end.

(** Content addressing makes the store acyclic: a tree cannot hold the
    identifier of a tree that holds its own.  [rank] bounds the depth
    below each tree. *)
Definition acyclic (r : Repository) (rank : ID -> nat) : Prop :=
  forall id tree node sub,
    LoadTree r id = Ok tree -> In node (Nodes tree) ->
    Type_ node = "dir" -> Subtree node = Some sub ->
    (rank sub < rank id)%nat.

(** After the events [base], every tree without a match of its own was
    loaded at most once, and one that was loaded is in the not-found set
    or still being visited ([visiting]). *)
Definition once `{Lib} (r : Repository) (p : findPattern)
    (visiting : ID -> Prop) (base : list Event) (f : Finder) : Prop :=
  repo f = r /\ pat f = p /\
  forall j, hasOwnMatch r p j = false ->
    (loads j base <= 1)%nat /\
    (loads j base = 1%nat -> j ∈ notfound f \/ visiting j).

(** [once] after a call that started after [base]: a call that stops
    early ends the run, and only the count matters then. *)
Definition onceAfter `{Lib} {A} (r : Repository) (p : findPattern)
    (visiting : ID -> Prop) (base : list Event)
    (x : (A + abort) * Finder * list Event) : Prop :=
  match x.1.1 with
  | inl _ => once r p visiting (base ++ x.2) x.1.2
  | inr _ => once r p (fun _ => True) (base ++ x.2) x.1.2
  end.

(** What a traversal may add to the not-found set: only trees that load
    and have no match among their own entries. *)
Definition cacheSound `{Lib} (f : Finder) (ev : list Event) (f' : Finder)
  : Prop :=
  (repo f' = repo f /\ pat f' = pat f) /\
  forall id, id ∈ notfound f' ->
    id ∈ notfound f \/ hasOwnMatch (repo f) (pat f) id = false.

(** How many of the snapshots are rooted at [root]. *)
Definition rootedAt (root : ID) (sns : list Snapshot) : nat :=
  length (List.filter (fun sn => match sn_Tree sn with
                                 | Some id => N.eqb id root
                                 | None => false
                                 end) sns).

(** The depth below each tree of the examples. *)
Definition ex_rank (id : ID) : nat :=
  match id with
  | 1%N | 3%N | 5%N => 1%nat
  | _ => 0%nat
  end.

Definition ex_two_snapshots : list Snapshot :=
  [ex_snapshot 1 "aaaa" 1%N; ex_snapshot 2 "bbbb" 3%N].

(** ** Further vocabulary: what a run reports *)

(** A report of an entry that the criteria [p] accept, attributed to the
    snapshot [cur]. *)
Definition faithfulReport `{Lib} (p : findPattern) (cur : option Snapshot)
    (e : Event) : Prop :=
  match e with
  | EvPrint _ node sn => accepted p node = true /\ sn = cur
  | _ => True
  end.

(** A traversal reports accepted entries only, under the snapshot the
    sink was told about, which it does not change. *)
Definition faithful `{Lib} (f : Finder) (ev : list Event) (f' : Finder)
  : Prop :=
  (repo f' = repo f /\ pat f' = pat f) /\
  newsn (out f') = newsn (out f) /\
  Forall (faithfulReport (pat f) (newsn (out f))) ev.

(** A report of an accepted entry, attributed to one of the snapshots
    [sns]. *)
Definition reportOf `{Lib} (p : findPattern) (sns : list Snapshot)
    (e : Event) : Prop :=
  match e with
  | EvPrint _ node sn =>
      accepted p node = true /\ exists s, sn = Some s /\ In s sns
  | _ => True
  end.

(** How many warnings, and how many headers and blank lines, a run
    wrote; how many matches [json.Marshal] did not render. *)
Definition warnings (ev : list Event) : nat :=
  length (List.filter (fun e => match e with EvWarnf _ => true | _ => false end) ev).

Definition headers (ev : list Event) : nat :=
  length (List.filter (fun e => match e with EvVerbosef _ => true | _ => false end) ev).

Definition unrendered `{Lib} (ev : list Event) : nat :=
  length (List.filter (fun e => match e with
                                | EvPrint prefix node _ => negb (marshals prefix node)
                                | _ => false
                                end) ev).

(** ** Further vocabulary: the output as a whole *)

(** The records of a run in structured mode: for every match that was
    rendered, the snapshot it was reported under and the text written. *)
Fixpoint records `{Lib} (ev : list Event) : list (Snapshot * string) :=
  match ev with
  | [] => []
  | EvPrint prefix node (Some sn) :: rest =>
      match Marshal (Join prefix (Name node)) (ModeString (Mode node)) node with
      | Ok b => (sn, Sprintf0 b) :: records rest
      | Err _ => records rest
      end
  | _ :: rest => records rest
  end.

(** The lines of a run in text mode: for every match, the snapshot it was
    reported under and the line written. *)
Fixpoint lines `{Lib} (long : bool) (ev : list Event)
  : list (Snapshot * string) :=
  match ev with
  | [] => []
  | EvPrint prefix node (Some sn) :: rest =>
      (sn, Sprintf0 (formatNode prefix node long +:+ nl)) :: lines long rest
  | _ :: rest => lines long rest
  end.

(** What a run wrote to the outside, loads and calls of the sink left
    out. *)
Definition outputs (ev : list Event) : list Event :=
  List.filter (fun e => negb (isLoad e) && negb (isPrint e)) ev.

(** Grouping after the fact: consecutive records of one snapshot object
    form a group, headed by the snapshot of its first record. *)
Definition consGroup (r : Snapshot * string)
    (gs : list (Snapshot * list string)) : list (Snapshot * list string) :=
  match gs with
  | (h, bs) :: gs' =>
      if Nat.eqb (sn_addr r.1) (sn_addr h) then (r.1, r.2 :: bs) :: gs'
      else (r.1, [r.2]) :: gs
  | [] => [(r.1, [r.2])]
  end.

Definition groupRecords (rs : list (Snapshot * string))
  : list (Snapshot * list string) :=
  fold_right consGroup [] rs.

(** The same grouping seen from the other end: one more record after the
    groups [gs]. *)
Fixpoint snocGroup (gs : list (Snapshot * list string))
    (r : Snapshot * string) : list (Snapshot * list string) :=
  match gs with
  | [] => [(r.1, [r.2])]
  | (h, bs) :: gs' =>
      match gs' with
      | [] => if Nat.eqb (sn_addr r.1) (sn_addr h) then [(h, bs ++ [r.2])]
              else [(h, bs); (r.1, [r.2])]
      | _ :: _ => (h, bs) :: snocGroup gs' r
      end
  end.

(** The structured document of a list of groups: an array of objects,
    each with the list of its records, their number and the id of its
    snapshot. *)
Definition groupText `{Lib} (g : Snapshot * list string) : string :=
  openGroup +:+ String.concat "," g.2
            +:+ closeGroup (Z.of_nat (length g.2)) g.1.

Definition document `{Lib} (gs : list (Snapshot * list string)) : string :=
  match gs with
  | [] => "[]" +:+ nl
  | _ :: _ => "[" +:+ String.concat "," (map groupText gs) +:+ "]" +:+ nl
  end.

(** The text listing of a list of groups: for each group a header and
    its lines, with a blank line between two groups. *)
Definition groupLines (g : Snapshot * list string) : list Event :=
  EvVerbosef ("Found matching entries in snapshot " +:+ sn_ID g.1 +:+ nl)
  :: map EvPrintf g.2.

Definition listing (gs : list (Snapshot * list string)) : list Event :=
  match gs with
  | [] => []
  | g :: rest =>
      groupLines g ++ flat_map (fun g' => EvVerbosef nl :: groupLines g') rest
  end.

(** The sink in structured mode after the records [rs], when [text] is
    what the result stream holds: nothing yet, or the document up to the
    last record of the group that is open. *)
Definition streamed `{Lib} (o : statefulOutput)
    (rs : list (Snapshot * string)) (text : string) : Prop :=
  JSON o = true /\
  ((rs = [] /\ inuse o = false /\ oldsn o = None /\ text = EmptyString) \/
   (exists gs h bs,
      groupRecords rs = gs ++ [(h, bs)] /\ bs <> [] /\
      inuse o = true /\ oldsn o = Some h /\ hits o = bump (length bs) /\
      text = "[" +:+ String.concat EmptyString
                       (map (fun g => groupText g +:+ ",") gs)
                 +:+ openGroup +:+ String.concat "," bs)).

(** The sink in text mode after the lines [rs], when [outs] is what was
    written. *)
Definition listed (long : bool) (o : statefulOutput)
    (rs : list (Snapshot * string)) (outs : list Event) : Prop :=
  JSON o = false /\ ListLong o = long /\
  outs = listing (groupRecords rs) /\
  oldsn o = match rev (groupRecords rs) with
            | (h, _) :: _ => Some h
            | [] => None
            end.

(** ** Further vocabulary: failing loads *)

(** The call returned the error [e], and loading [id] is the last thing
    it did. *)
Definition endsAtLoad {A} (x : (A + abort) * Finder * list Event) (id : ID)
    (e : error) : Prop :=
  x.1.1 = inr (Failed e) /\ exists ev0, x.2 = ev0 ++ [EvLoadTree id].

(** A call for which every failing load is fatal. *)
Definition loadFatal {A} (f : Finder) (x : (A + abort) * Finder * list Event)
  : Prop :=
  repo x.1.2 = repo f /\
  forall id e, In (EvLoadTree id) x.2 -> LoadTree (repo f) id = Err e ->
    endsAtLoad x id e.

Definition ex_dangling : list Snapshot :=
  [ex_snapshot 1 "aaaa" 1%N; ex_snapshot 2 "cccc" 9%N;
   ex_snapshot 3 "bbbb" 3%N].

(** * Reasoning about methods *)

Lemma bind_eq {A B} (m : M A) (k : A -> M B) (f : Finder) :
  (m ≫= k) f =
  match m f with
  | (inl a, f1, ev1) => let '(r, f2, ev2) := k a f1 in (r, f2, ev1 ++ ev2)
  | (inr x, f1, ev1) => (inr x, f1, ev1)
  end.
Proof. reflexivity. Qed.

Lemma triple_eta {A} (x : (A + abort) * Finder * list Event) :
  (let '(r, f, ev) := x in (r, f, ev)) = x.
Proof. by destruct x as [[? ?] ?]. Qed.

Lemma ret_bind {A B} (a : A) (k : A -> M B) f : (mret a ≫= k) f = k a f.
Proof. rewrite bind_eq. cbn. apply triple_eta. Qed.

Lemma get_bind {B} (k : Finder -> M B) f : (get ≫= k) f = k f f.
Proof. rewrite bind_eq. cbn. apply triple_eta. Qed.

Lemma put_bind {B} (k : unit -> M B) f' f : (put f' ≫= k) f = k tt f'.
Proof. rewrite bind_eq. cbn. apply triple_eta. Qed.

Lemma stop_bind {A B} (x : abort) (k : A -> M B) f :
  (stop x ≫= k) f = (inr x, f, []).
Proof. reflexivity. Qed.

Lemma emit_bind {B} (ev : list Event) (k : unit -> M B) f :
  (emit ev ≫= k) f = let '(r, f2, ev2) := k tt f in (r, f2, ev ++ ev2).
Proof. reflexivity. Qed.

Lemma try_bind {A B} (r : res A) (k : A -> M B) f :
  (try r ≫= k) f =
  match r with
  | Ok a => k a f
  | Err err => (inr (Failed err), f, [])
  end.
Proof. destruct r; [apply ret_bind | reflexivity]. Qed.

(** A bind that ends was either stopped in its first part or went through
    both. *)
Lemma bind_inv {A B} (m : M A) (k : A -> M B) f r f' ev :
  (m ≫= k) f = (r, f', ev) ->
  (exists x, m f = (inr x, f', ev) /\ r = inr x) \/
  (exists a f1 ev1 ev2,
      m f = (inl a, f1, ev1) /\ k a f1 = (r, f', ev2) /\ ev = ev1 ++ ev2).
Proof.
  rewrite bind_eq. destruct (m f) as [[[a | x] f1] ev1].
  - destruct (k a f1) as [[r2 f2] ev2] eqn:Hk. intros [= <- <- <-].
    right. by exists a, f1, ev1, ev2.
  - intros [= <- <- <-]. left. by exists x.
Qed.

Section Transition.
Context `{Lib}.

(** A relation between the finder before a call, what the call did and
    the finder after it, that holds of every elementary action of the
    search and composes. *)
Variable R : Finder -> list Event -> Finder -> Prop.
Variable Pfx : string -> Prop.

Hypothesis R_frame : forall f ev f',
  R f ev f' -> repo f' = repo f /\ pat f' = pat f.
Hypothesis R_refl : forall f, R f [] f.
Hypothesis R_trans : forall f1 ev1 f2 ev2 f3,
  R f1 ev1 f2 -> R f2 ev2 f3 -> R f1 (ev1 ++ ev2) f3.
Hypothesis R_load : forall f id,
  id ∉ notfound f -> R f [EvLoadTree id] f.
Hypothesis R_print : forall f prefix node r f' ev,
  Pfx prefix -> testEntry (pat f) node = Ok Accepted ->
  callPrint prefix node f = (r, f', ev) -> R f ev f'.
Hypothesis R_insert : forall f id tree,
  LoadTree (repo f) id = Ok tree ->
  Forall (fun node => testEntry (pat f) node <> Ok Accepted) (Nodes tree) ->
  R f [] (set_notfound f ({[id]} ∪ notfound f)).
Hypothesis Pfx_join : forall prefix name,
  Pfx prefix -> Pfx (Join prefix name).

Lemma holds_bind {A B} (m : M A) (k : A -> M B) f :
  holds R f (m f) ->
  (forall a f1 ev1, m f = (inl a, f1, ev1) -> holds R f1 (k a f1)) ->
  holds R f ((m ≫= k) f).
Proof.
  unfold holds. rewrite bind_eq. intros Hm Hk.
  destruct (m f) as [[[a | x] f1] ev1]; simpl in *; [| done].
  specialize (Hk a f1 ev1 eq_refl).
  destruct (k a f1) as [[r2 f2] ev2]; simpl in *. eauto.
Qed.

Lemma holds_descend rec prefix node f :
  Pfx prefix ->
  (forall sub p f, Pfx p -> holds R f (rec sub p f)) ->
  holds R f (descend rec prefix node f).
Proof.
  intros Hp Hrec. unfold descend.
  destruct (String.eqb _ _); [| apply R_refl].
  destruct (Subtree node); [| apply R_refl]. apply Hrec. by apply Pfx_join.
Qed.

Lemma scanNodes_holds rec prefix :
  Pfx prefix ->
  (forall sub p f, Pfx p -> holds R f (rec sub p f)) ->
  forall nodes found f,
    holds R f (scanNodes rec prefix nodes found f) /\
    (forall f' ev, scanNodes rec prefix nodes found f = (inl false, f', ev) ->
       found = false /\
       Forall (fun node => testEntry (pat f) node <> Ok Accepted) nodes).
Proof.
  intros Hp Hrec. induction nodes as [| node rest IH]; intros found f.
  { split; [apply R_refl |]. intros f' ev [= -> _ _]. by split. }
  cbn [scanNodes]. rewrite get_bind, try_bind.
  destruct (testEntry (pat f) node) as [v | err] eqn:Htest; cycle 1.
  { split; [apply R_refl | intros ? ? [=]]. }
  assert (Hdesc : forall found1 f1,
    pat f1 = pat f -> found1 = true \/ (found1 = found /\ v = NoMatch) ->
    let x := (descend rec prefix node ≫= fun _ => scanNodes rec prefix rest found1) f1 in
    holds R f1 x /\
    (forall f' ev, x = (inl false, f', ev) ->
       found = false /\
       Forall (fun node => testEntry (pat f) node <> Ok Accepted) (node :: rest))).
  { intros found1 f1 Hpat1 Hf1 x. subst x. split.
    - apply holds_bind; [by apply holds_descend |].
      intros _ f2 ev2 _. apply IH.
    - intros f' ev Heq.
      apply bind_inv in Heq as [(x & _ & [=]) | (a & f2 & ev2 & ev3 & Hd & Hs & _)].
      pose proof (holds_descend rec prefix node f1 Hp Hrec) as Hh.
      unfold holds in Hh. rewrite Hd in Hh. simpl in Hh.
      destruct (R_frame _ _ _ Hh) as [_ Hpat2].
      apply IH in Hs as [-> Hall].
      destruct Hf1 as [[=] | [<- ->]]. split; [done |].
      constructor; [by rewrite Htest |]. by rewrite <- Hpat1, <- Hpat2. }
  destruct v.
  - exact (Hdesc found f eq_refl (or_intror (conj eq_refl eq_refl))).
  - destruct (IH found f) as [Hh Hf]. split; [exact Hh |].
    intros f' ev Heq. destruct (Hf _ _ Heq) as [-> Hall]. split; [done |].
    constructor; [| done]. by rewrite Htest.
  - split.
    + apply holds_bind.
      * unfold holds.
        destruct (callPrint prefix node f) as [[r1 f1] ev1] eqn:Hprint.
        eapply R_print; eauto.
      * intros [] f1 ev1 Hprint.
        pose proof (R_print _ _ _ _ _ _ Hp Htest Hprint) as HR1.
        destruct (R_frame _ _ _ HR1) as [_ Hpat1].
        apply (Hdesc true f1 Hpat1 (or_introl eq_refl)).
    + intros f' ev Heq.
      apply bind_inv in Heq as [(x & _ & [=]) | ([] & f1 & ev1 & ev2 & Hprint & Hd & _)].
      pose proof (R_print _ _ _ _ _ _ Hp Htest Hprint) as HR1.
      destruct (R_frame _ _ _ HR1) as [_ Hpat1].
      destruct (Hdesc true f1 Hpat1 (or_introl eq_refl)) as [_ Hd2].
      destruct (Hd2 _ _ Hd) as [-> HF].
      inversion HF; subst. by rewrite Htest in *.
Qed.

Theorem findInTree_holds fuel : forall treeID prefix f,
  Pfx prefix -> holds R f (findInTree fuel treeID prefix f).
Proof.
  induction fuel as [| fuel IH]; intros treeID prefix f Hp.
  { apply R_refl. }
  cbn [findInTree]. rewrite get_bind.
  destruct (decide (treeID ∈ notfound f)) as [Hin | Hnin].
  { apply R_refl. }
  apply holds_bind; [by apply R_load |]. intros [] f1 ev1 [= <- <-].
  rewrite try_bind.
  destruct (LoadTree (repo f) treeID) as [tree | err] eqn:Hload;
    [| apply R_refl].
  destruct (scanNodes_holds (findInTree fuel) prefix Hp
              (fun sub p f Hp' => IH sub p f Hp') (Nodes tree) false f)
    as [Hscan Hfound].
  apply holds_bind; [exact Hscan |]. intros found f1 ev1 Heq.
  destruct found; [apply R_refl |].
  rewrite get_bind. unfold holds in *. rewrite Heq in Hscan. cbn in *.
  destruct (R_frame _ _ _ Hscan) as [Hrepo Hpat].
  destruct (Hfound _ _ Heq) as [_ Hall].
  eapply R_insert; rewrite ?Hrepo, ?Hpat; eauto.
Qed.

End Transition.

(** * The engine and the sink *)

Section Traversal.
Context `{Lib}.

Lemma callPrint_eq prefix node f :
  callPrint prefix node f =
  match Print (out f) prefix node with
  | Some (o, ev) =>
      (inl tt, set_out f o, EvPrint prefix node (newsn (out f)) :: ev)
  | None => (inr Panicked, f, [EvPrint prefix node (newsn (out f))])
  end.
Proof.
  unfold callPrint. rewrite get_bind, emit_bind.
  destruct (Print (out f) prefix node) as [[o ev] |]; [| reflexivity].
  rewrite put_bind. reflexivity.
Qed.

Lemma SinkRun_app o1 ev1 o2 ev2 o3 :
  SinkRun o1 ev1 o2 -> SinkRun o2 ev2 o3 -> SinkRun o1 (ev1 ++ ev2) o3.
Proof.
  induction 1 as [| ? ? ? ? ? IH | ? ? ? ? ? ? ? Hp ? IH | ? ? ? ? ? Hp ? IH];
    intros H2; cbn [app].
  - exact H2.
  - constructor. by apply IH.
  - rewrite <- app_assoc. econstructor; [exact Hp | by apply IH].
  - apply SinkRun_panic; [exact Hp | by apply IH].
Qed.

Lemma traversal_refl f : traversal f [] f.
Proof. repeat split; [done | constructor]. Qed.

Lemma traversal_trans f1 ev1 f2 ev2 f3 :
  traversal f1 ev1 f2 -> traversal f2 ev2 f3 -> traversal f1 (ev1 ++ ev2) f3.
Proof.
  intros (Hr1 & Hp1 & Hn1 & Hs1) (Hr2 & Hp2 & Hn2 & Hs2).
  repeat split; [congruence | congruence | set_solver |].
  eapply SinkRun_app; eauto.
Qed.

Lemma traversal_print f prefix node r f' ev :
  callPrint prefix node f = (r, f', ev) -> traversal f ev f'.
Proof.
  rewrite callPrint_eq.
  destruct (Print (out f) prefix node) as [[o pev] |] eqn:Hp;
    intros [= <- <- <-]; repeat split; try done.
  - rewrite <- (app_nil_r pev). econstructor; [exact Hp | constructor].
  - apply SinkRun_panic; [exact Hp | constructor].
Qed.

(** A traversal leaves the repository and the criteria alone, only adds
    to the not-found set, and talks to the sink through [Print] only. *)
Theorem findInTree_traversal fuel treeID prefix f :
  holds traversal f (findInTree fuel treeID prefix f).
Proof.
  apply (findInTree_holds traversal (fun _ => True)); try done.
  - by intros f0 ev f' (? & ? & _).
  - apply traversal_refl.
  - apply traversal_trans.
  - intros f0 id _. repeat split; try done. repeat constructor.
  - intros f0 p node r f' ev _ _. apply traversal_print.
  - intros f0 id tree _ _. repeat split; [set_solver | constructor].
Qed.

End Traversal.

(** * The time window *)

Section Window.
Context `{Lib}.

Lemma testEntry_matched p node :
  matchName p node = Ok true ->
  testEntry p node =
  Ok (if (IsZero (oldest p) || (oldest p <=? ModTime node))
         && (IsZero (newest p) || (ModTime node <=? newest p))
      then Accepted else Skipped).
Proof.
  intros Hm. unfold testEntry, IsZero, Before, After. rewrite Hm.
  destruct (oldest p =? 0) eqn:Ho, (newest p =? 0) eqn:Hn; cbn;
    repeat match goal with
      | |- context [?a <? ?b] => destruct (Z.ltb_spec a b)
      | |- context [?a <=? ?b] => destruct (Z.leb_spec a b)
      end; cbn; try reflexivity; lia.
Qed.

(** C4: for an entry whose name matches, the time window is inclusive
    on both ends and a zero bound is no constraint: the entry is handed
    to the sink exactly when [oldest] is zero or not after its [ModTime]
    and [newest] is zero or not before it (so [ModTime = oldest] and
    [ModTime = newest] are accepted); otherwise the loop moves on to the
    next entry without printing it. *)
Theorem time_window_inclusive rec prefix node rest found f :
  matchName (pat f) node = Ok true ->
  let p := pat f in
  let inWindow :=
    (oldest p = 0 \/ oldest p <= ModTime node) /\
    (newest p = 0 \/ ModTime node <= newest p) in
  (inWindow <-> testEntry p node = Ok Accepted) /\
  (~ inWindow <-> testEntry p node = Ok Skipped) /\
  (inWindow ->
     scanNodes rec prefix (node :: rest) found f =
     (callPrint prefix node;; descend rec prefix node;;
      scanNodes rec prefix rest true) f) /\
  (~ inWindow ->
     scanNodes rec prefix (node :: rest) found f =
     scanNodes rec prefix rest found f).
Proof.
  intros Hm p inWindow.
  pose proof (testEntry_matched p node Hm) as Ht.
  assert (Hdec : inWindow <->
    (IsZero (oldest p) || (oldest p <=? ModTime node))
    && (IsZero (newest p) || (ModTime node <=? newest p)) = true).
  { unfold inWindow, IsZero.
    rewrite andb_true_iff, !orb_true_iff, !Z.eqb_eq, !Z.leb_le. tauto. }
  destruct ((IsZero (oldest p) || (oldest p <=? ModTime node))
            && (IsZero (newest p) || (ModTime node <=? newest p))) eqn:Hw.
  - assert (Hin : inWindow) by (by apply Hdec).
    split; [by split |]. split; [| split].
    + split; [by intros Hnot | by rewrite Ht].
    + intros _. cbn [scanNodes]. rewrite get_bind, try_bind.
      fold p. by rewrite Ht.
    + by intros Hnot.
  - assert (Hout : ~ inWindow) by (rewrite Hdec; congruence).
    split; [split; [done | by rewrite Ht] |]. split; [by split |].
    split; [done |].
    intros _. cbn [scanNodes]. rewrite get_bind, try_bind.
    fold p. by rewrite Ht.
Qed.

End Window.

(** With [oldest = newest = 2020-01-01], the entry [a.txt] of that very
    instant is accepted under [*.txt]. *)
Lemma time_window_inclusive_witness :
  @testEntry (ex_lib [])
    (mkFindPattern date_2020_01_01 date_2020_01_01 "*.txt" false)
    (file "a.txt" date_2020_01_01) = Ok Accepted.
Proof.
  pose proof (@time_window_inclusive (ex_lib []) (fun _ _ => mret tt) sep
    (file "a.txt" date_2020_01_01) [] false
    (ex_finder (mkFindPattern date_2020_01_01 date_2020_01_01 "*.txt" false)
       true) eq_refl) as [Hacc _].
  apply Hacc. split; right; reflexivity.
Defined.

(** * Case folding *)

Section CaseFolding.
Context `{Lib}.

Lemma makePattern_inv opts args p :
  makePattern opts args = Ok p ->
  exists arg, args = [arg] /\
    ignoreCase p = CaseInsensitive opts /\
    pattern p = (if CaseInsensitive opts then ToLower arg else arg).
Proof.
  unfold makePattern. destruct args as [| arg [| ? ?]]; try discriminate.
  intros Hp. exists arg. split; [done |].
  destruct (if String.eqb (Oldest opts) EmptyString then _ else _);
    [| discriminate].
  destruct (if String.eqb (Newest opts) EmptyString then _ else _);
    [| discriminate].
  injection Hp as <-. by destruct (CaseInsensitive opts).
Qed.

(** C6: the criteria built by [runFind] fold case exactly when the flag is
    set.  With the flag set the pattern is stored lowercased and every
    entry name is lowercased before the match, so names and patterns that
    differ in case only are treated alike; with the flag unset both are
    matched as they are. *)
Theorem case_folding opts arg p :
  makePattern opts [arg] = Ok p ->
  ignoreCase p = CaseInsensitive opts /\
  (if CaseInsensitive opts
   then pattern p = ToLower arg /\
        forall node,
          matchName p node = Match (ToLower arg) (ToLower (Name node))
   else pattern p = arg /\
        forall node, matchName p node = Match arg (Name node)).
Proof.
  intros Hp. apply makePattern_inv in Hp as (arg' & [= <-] & Hi & Hpat).
  split; [exact Hi |]. unfold matchName. rewrite Hi, Hpat.
  by destruct (CaseInsensitive opts).
Qed.

End CaseFolding.

(** Pattern [*.TXT] against the entry [notes.txt]: a match with the flag
    set, none with the flag unset. *)
Lemma case_folding_witness :
  (exists p, @makePattern (ex_lib []) ex_opts_i ["*.TXT"] = Ok p /\
     pattern p = "*.txt" /\
     @matchName (ex_lib []) p (file "notes.txt" 1) = Ok true) /\
  (exists p, @makePattern (ex_lib []) ex_opts ["*.TXT"] = Ok p /\
     pattern p = "*.TXT" /\
     @matchName (ex_lib []) p (file "notes.txt" 1) = Ok false).
Proof.
  split.
  - eexists. split; [reflexivity |].
    destruct (@case_folding (ex_lib []) ex_opts_i "*.TXT" _ eq_refl)
      as [_ [Hpat Hm]].
    split; [exact Hpat |]. rewrite Hm. reflexivity.
  - eexists. split; [reflexivity |].
    destruct (@case_folding (ex_lib []) ex_opts "*.TXT" _ eq_refl)
      as [_ [Hpat Hm]].
    split; [exact Hpat |]. rewrite Hm. reflexivity.
Defined.

(** * Serialization failures *)

Section Serialization.
Context `{Lib}.

Lemma set_out_same f : set_out f (out f) = f.
Proof. by destruct f. Qed.

(** C8: when [json.Marshal] fails for a match, [PrintJSON] only warns:
    nothing goes to the result stream and the sink, its hit counter
    included, is as before; the loop then goes on with the directory
    recursion and the remaining entries as after any other match. *)
Theorem marshal_failure_skips_record s prefix node err :
  Marshal (Join prefix (Name node)) (ModeString (Mode node)) node = Err err ->
  let warning := EvWarnf ("Marshall failed: " +:+ Error err +:+ nl) in
  PrintJSON s prefix node = (s, [warning]) /\
  forall rec rest found f,
    out f = s -> JSON s = true -> testEntry (pat f) node = Ok Accepted ->
    scanNodes rec prefix (node :: rest) found f =
    let '(r, f', ev) :=
      (descend rec prefix node;; scanNodes rec prefix rest true) f in
    (r, f', EvPrint prefix node (newsn s) :: warning :: ev).
Proof.
  intros Hm warning.
  assert (Hp : PrintJSON s prefix node = (s, [warning])).
  { unfold PrintJSON. by rewrite Hm. }
  split; [exact Hp |].
  intros rec rest found f Hout Hjson Htest.
  cbn [scanNodes]. rewrite get_bind, try_bind, Htest, bind_eq, callPrint_eq.
  unfold Print. rewrite Hout, Hjson, Hp, <- Hout, set_out_same.
  by destruct ((descend rec prefix node;; scanNodes rec prefix rest true) f)
    as [[r f'] ev].
Qed.

End Serialization.

(** An entry whose modification time lies before year 0 cannot be
    rendered; it is the only entry of its tree. *)
Lemma marshal_failure_skips_record_witness :
  let node := file "old.txt" (day (-400)) in
  let f := ex_finder (mkFindPattern 0 0 "*.txt" false) true in
  @scanNodes (ex_lib []) (fun _ _ => mret tt) sep [node] false f =
  (inl true, f,
   [EvPrint sep node None;
    EvWarnf ("Marshall failed: Time.MarshalJSON: year outside of range [0,9999]"
             +:+ nl)]).
Proof.
  intros node f.
  destruct (@marshal_failure_skips_record (ex_lib []) (out f) sep node _ eq_refl)
    as [_ Hloop].
  rewrite (Hloop (fun _ _ => mret tt) [] false f eq_refl eq_refl eq_refl).
  reflexivity.
Defined.

(** * Reported paths *)

Lemma rooted_Clean path : rooted path = true -> rooted (Clean path) = true.
Proof. intros Hr. unfold Clean. rewrite Hr. reflexivity. Qed.

Lemma rooted_Join prefix name :
  rooted prefix = true -> rooted (Join prefix name) = true.
Proof.
  intros Hr. unfold Join. destruct prefix as [| c rest]; [discriminate |].
  cbn [String.eqb]. apply rooted_Clean. exact Hr.
Qed.

Section Paths.
Context `{Lib}.

(** The sink writes texts only; it neither loads trees nor calls
    itself. *)
Lemma Print_events o prefix node o' ev :
  Print o prefix node = Some (o', ev) ->
  Forall (fun e => isLoad e = false /\ isPrint e = false) ev.
Proof.
  unfold Print, PrintJSON, PrintNormal.
  destruct (JSON o).
  - destruct (Marshal _ _ _).
    + destruct (negb (same_sn _ _)), (inuse o), (oldsn (set_inuse o true));
        intros [= <- <-]; cbn;
        repeat match goal with |- context [if ?b then _ else _] => destruct b end;
        repeat constructor.
    + intros [= <- <-]. repeat constructor.
  - destruct (negb (same_sn _ _)).
    + destruct (newsn o); [| discriminate].
      destruct (oldsn o); intros [= <- <-]; repeat constructor.
    + intros [= <- <-]. repeat constructor.
Qed.

Lemma findInTree_absolute fuel treeID prefix f :
  rooted prefix = true ->
  holds absolute f (findInTree fuel treeID prefix f).
Proof.
  apply (findInTree_holds absolute (fun p => rooted p = true)).
  - by intros f0 ev f' [? _].
  - by intros f0.
  - intros f1 ev1 f2 ev2 f3 [[? ?] Ha] [[? ?] Hb].
    split; [split; congruence | by apply Forall_app].
  - intros f0 id _. split; [done | by repeat constructor].
  - intros f0 p node r f' ev Hp _. rewrite callPrint_eq.
    destruct (Print (out f0) p node) as [[o pev] |] eqn:HP;
      intros [= <- <- <-]; (split; [done |]); constructor;
      try (cbn; rewrite Hp; by apply rooted_Join); [| constructor].
    apply Print_events in HP. eapply Forall_impl; [exact HP |].
    intros [] [? ?]; done.
  - intros f0 id tree _ _. by split.
  - intros p name. apply rooted_Join.
Qed.

(** C10: every match that the search of a snapshot hands to the sink has
    an absolute path.  The traversal starts under the separator, each
    recursion joins the directory name to the prefix, and the reported
    path joins the prefix and the entry name, so both the prefix and the
    reported path begin with the separator. *)
Theorem emitted_paths_absolute fuel sn f :
  Forall (fun e => absolutePath e = true) (findInSnapshot fuel sn f).2.
Proof.
  unfold findInSnapshot. rewrite get_bind, put_bind.
  destruct (sn_Tree sn) as [root |]; [| constructor].
  apply (findInTree_absolute fuel root sep). reflexivity.
Qed.

End Paths.

(** * Snapshots without a match *)

Section Silent.
Context `{Lib}.

Lemma SinkRun_silent o ev o' :
  SinkRun o ev o' ->
  forallb (fun e => negb (isPrint e)) ev = true ->
  o' = o /\ forallb isLoad ev = true.
Proof.
  induction 1 as [| ? ? ? ? ? IH | |]; cbn; try discriminate.
  - done.
  - exact IH.
Qed.

Lemma findInSnapshot_traversal fuel sn f :
  holds traversal (set_out f (set_newsn (out f) (Some sn)))
    (findInSnapshot fuel sn f).
Proof.
  unfold findInSnapshot. rewrite get_bind, put_bind.
  destruct (sn_Tree sn) as [root |]; [| apply traversal_refl].
  apply findInTree_traversal.
Qed.

(** C9: a snapshot whose search hands no match to the sink leaves no
    trace in the output.  The only events of the search are tree loads
    (no header, no group, no record, no warning), and the sink is as it
    was but for its note of the current snapshot: [inuse], [oldsn] and
    [hits] are unchanged, so [Finish] prints what it would have printed
    before.  In both modes the sink moves to a new snapshot only inside
    [Print]. *)
Theorem no_match_no_output fuel sn f :
  let x := findInSnapshot fuel sn f in
  forallb (fun e => negb (isPrint e)) x.2 = true ->
  forallb isLoad x.2 = true /\
  out x.1.2 = set_newsn (out f) (Some sn) /\
  Finish (out x.1.2) = Finish (out f).
Proof.
  intros x Hsilent.
  destruct (findInSnapshot_traversal fuel sn f) as (_ & _ & _ & Hrun).
  fold x in Hrun. cbn [out set_out] in Hrun.
  destruct (SinkRun_silent _ _ _ Hrun Hsilent) as [Ho Hl].
  split; [exact Hl |]. split; [exact Ho |]. by rewrite Ho.
Qed.

End Silent.

(** Under [*.log] the snapshot rooted at [T1] has no match: both trees
    are loaded and nothing else happens. *)
Lemma no_match_no_output_witness :
  let f := ex_finder (mkFindPattern 0 0 "*.log" false) true in
  let x := @findInSnapshot (ex_lib []) 5 (ex_snapshot 1 "aaaa" 1%N) f in
  x.2 = [EvLoadTree 1%N; EvLoadTree 2%N] /\
  forallb isLoad x.2 = true /\
  out x.1.2 = set_newsn (out f) (Some (ex_snapshot 1 "aaaa" 1%N)) /\
  @Finish (ex_lib []) (out x.1.2) = @Finish (ex_lib []) (out f).
Proof.
  intros f x. split; [reflexivity |].
  apply (@no_match_no_output (ex_lib []) 5 (ex_snapshot 1 "aaaa" 1%N) f).
  reflexivity.
Defined.

(** * The structured document *)

Section Document.
Context `{Lib}.

Lemma printed_app ev1 ev2 : printed (ev1 ++ ev2) = printed ev1 ++ printed ev2.
Proof.
  induction ev1 as [| [] ev1 IH]; cbn; [done | | | rewrite IH | |]; done.
Qed.

Lemma written_app ev1 ev2 : written (ev1 ++ ev2) = written ev1 || written ev2.
Proof. apply existsb_app. Qed.

Lemma tally_app ev1 ev2 cur n :
  tally (ev1 ++ ev2) cur n =
  tally ev2 (tally ev1 cur n).1 (tally ev1 cur n).2.
Proof.
  revert cur n. induction ev1 as [| e ev1 IH]; intros cur n; [done |].
  destruct e as [| p nd s | | |]; cbn; try apply IH.
  destruct (marshals p nd); [| apply IH].
  destruct (same_sn s cur); apply IH.
Qed.

(** Events that are no rendered match leave the open group alone. *)
Lemma tally_unwritten ev cur n :
  written ev = false -> tally ev cur n = (cur, n).
Proof.
  revert cur n. induction ev as [| e ev IH]; intros cur n; [done |].
  cbn. intros [He Hev]%orb_false_elim. destruct e; cbn; try by apply IH.
  rewrite He. by apply IH.
Qed.

Lemma written_texts ev :
  Forall (fun e => isLoad e = false /\ isPrint e = false) ev ->
  written ev = false.
Proof.
  induction 1 as [| [] ev [? ?] _ IH]; cbn in *; done.
Qed.

(** [PrintJSON] when the match is rendered: into the open group, or into
    a new one after closing the open one. *)
Lemma PrintJSON_ok o prefix node b :
  Marshal (Join prefix (Name node)) (ModeString (Mode node)) node = Ok b ->
  PrintJSON o prefix node =
  let opening := if inuse o then [] else [EvPrintf "["] in
  if same_sn (newsn o) (oldsn o) then
    (set_hits (set_inuse o true) (wrap64 (hits o + 1)),
     opening ++ (if 0 <? hits o then [EvPrintf ","] else [])
             ++ [EvPrintf (Sprintf0 b)])
  else
    (set_hits (set_oldsn (set_inuse o true) (newsn o)) (wrap64 (0 + 1)),
     opening ++ (match oldsn o with
                 | Some old => [EvPrintf (closeGroup (hits o) old +:+ ",")]
                 | None => []
                 end ++ [EvPrintf openGroup])
             ++ [EvPrintf (Sprintf0 b)]).
Proof.
  intros Hm. unfold PrintJSON. rewrite Hm. cbn [set_inuse newsn oldsn hits].
  destruct (same_sn (newsn o) (oldsn o)); cbn [negb]; [done |].
  cbn [set_hits set_oldsn hits]. by destruct o.
Qed.

(** One call of [PrintJSON] under the current snapshot [sn]. *)
Lemma PrintJSON_tracks o prefix node sn cur n :
  newsn o = Some sn -> tracks o cur n ->
  let o' := (PrintJSON o prefix node).1 in
  let pev := (PrintJSON o prefix node).2 in
  newsn o' = newsn o /\
  Forall (fun e => isLoad e = false /\ isPrint e = false) pev /\
  if marshals prefix node then
    printed pev <> [] /\
    if same_sn (Some sn) cur then tracks o' cur (S n)
    else tracks o' (Some sn) 1
  else o' = o /\ printed pev = [].
Proof.
  intros Hn (Hj & Ho & Hh & Hi). unfold marshals.
  destruct (Marshal _ _ _) as [b | err] eqn:Hm; cbn zeta.
  2: { unfold PrintJSON. rewrite Hm. cbn. repeat split; try done.
       repeat constructor. }
  rewrite (PrintJSON_ok o prefix node b Hm). cbn zeta. rewrite Hn, Ho.
  destruct (same_sn (Some sn) cur) eqn:Hs; cbn [fst snd].
  - destruct cur as [c |]; [| discriminate].
    split; [by cbn |]. split.
    { destruct (inuse o), (0 <? hits o); repeat constructor. }
    split.
    { destruct (inuse o), (0 <? hits o); cbn; discriminate. }
    repeat split; cbn; try done. by rewrite Hh.
  - split; [by cbn |]. split.
    { destruct (inuse o), cur; repeat constructor. }
    split.
    { destruct (inuse o), cur; cbn; discriminate. }
    repeat split; cbn; done.
Qed.

(** Along a traversal in structured mode the sink follows [tally], and
    text reaches the result stream exactly when a match is rendered. *)
Lemma SinkRun_tally o ev o' :
  SinkRun o ev o' ->
  forall sn cur n,
    newsn o = Some sn -> tracks o cur n ->
    newsn o' = Some sn /\
    tracks o' (tally ev cur n).1 (tally ev cur n).2 /\
    (written ev = false -> printed ev = []) /\
    (written ev = true -> printed ev <> []) /\
    (is_Some cur \/ written ev = true -> is_Some (tally ev cur n).1).
Proof.
  induction 1 as [o | o id ev o' _ IH | o prefix node o1 pev ev o' Hp _ IH
                  | o prefix node ev o' Hp _ IH];
    intros sn cur n Hn Ht.
  - cbn. split; [done |]. split; [done |]. split; [done |]. split; [done |].
    by intros [? | ?].
  - cbn. by apply IH.
  - assert (Hj : JSON o = true) by apply Ht.
    unfold Print in Hp. rewrite Hj in Hp. injection Hp as Hp.
    pose proof (PrintJSON_tracks o prefix node sn cur n Hn Ht) as Hstep.
    rewrite Hp in Hstep. cbn [fst snd] in Hstep.
    destruct Hstep as (Hn1 & Htexts & Hstep).
    rewrite Hn1 in *. cbn [tally written existsb printed].
    fold (written (pev ++ ev)). rewrite written_app, printed_app, Hn.
    rewrite (written_texts pev Htexts). cbn [orb].
    assert (Hskip : forall c k, tally (pev ++ ev) c k = tally ev c k).
    { intros c k. rewrite tally_app.
      by rewrite (tally_unwritten pev c k (written_texts pev Htexts)). }
    destruct (marshals prefix node).
    + destruct Hstep as [Hne Hstep].
      assert (Hnonil : printed pev ++ printed ev <> []).
      { intros Happ. apply app_eq_nil in Happ as [? _]. done. }
      destruct (same_sn (Some sn) cur) eqn:Hs; rewrite Hskip;
        destruct (IH sn _ _ Hn Hstep) as (Hn' & Ht' & _ & _ & Hsome);
        (split; [done |]); (split; [done |]); (split; [done |]);
        (split; [done |]); intros _; apply Hsome; left.
      * destruct cur; [done | discriminate].
      * done.
    + destruct Hstep as [-> Hnil]. rewrite Hnil, Hskip. cbn [app].
      by apply IH.
  - assert (Hj : JSON o = true) by apply Ht.
    unfold Print in Hp. by rewrite Hj in Hp.
Qed.

Lemma findInSnapshots_tally fuel sns :
  forall f cur n,
    tracks (out f) cur n ->
    let x := findInSnapshots fuel sns f in
    tracks (out x.1.2) (tally x.2 cur n).1 (tally x.2 cur n).2 /\
    (written x.2 = false -> printed x.2 = []) /\
    (written x.2 = true -> printed x.2 <> []) /\
    (is_Some cur \/ written x.2 = true -> is_Some (tally x.2 cur n).1).
Proof.
  induction sns as [| sn rest IH]; intros f cur n Ht; cbn zeta.
  { cbn. split; [done |]. split; [done |]. split; [done |]. by intros [? | ?]. }
  cbn [findInSnapshots]. rewrite bind_eq.
  pose proof (findInSnapshot_traversal fuel sn f) as (_ & _ & _ & Hrun).
  destruct (findInSnapshot fuel sn f) as [[r1 f1] ev1]. cbn [fst snd] in Hrun.
  cbn [out set_out] in Hrun.
  assert (Ht0 : tracks (set_newsn (out f) (Some sn)) cur n) by exact Ht.
  destruct (SinkRun_tally _ _ _ Hrun sn cur n eq_refl Ht0)
    as (_ & Ht1 & Hw0 & Hw1 & Hs1).
  destruct r1 as [[] | x]; [| cbn [fst snd]; tauto].
  specialize (IH f1 _ _ Ht1). cbn zeta in IH.
  destruct (findInSnapshots fuel rest f1) as [[r2 f2] ev2].
  cbn [fst snd] in *. rewrite tally_app, written_app, printed_app.
  destruct IH as (Ht2 & Hv0 & Hv1 & Hs2). split; [exact Ht2 |].
  split; [| split].
  - intros [? ?]%orb_false_elim. rewrite Hw0, Hv0; done.
  - intros Hw Happ. apply app_eq_nil in Happ as [Hp1 Hp2].
    destruct (written ev1) eqn:E1; [by apply Hw1 |].
    destruct (written ev2) eqn:E2; [by apply Hv1 | done].
  - intros Hc. apply Hs2.
    destruct (written ev2); [by right | left].
    apply Hs1. by rewrite orb_false_r in Hc.
Qed.

Lemma tally_Finish o cur n : tally (Finish o) cur n = (cur, n).
Proof.
  apply tally_unwritten. unfold Finish.
  destruct (JSON o), (oldsn o), (inuse o); reflexivity.
Qed.


End Document.


(** * Invalid patterns *)

Section InvalidPattern.
Context `{Lib}.
Variable err : error.

Lemma testEntry_rejected p node :
  (forall name, Match (pattern p) name = Err err) ->
  testEntry p node = Err err.
Proof. intros Hbad. unfold testEntry, matchName. by rewrite Hbad. Qed.

Lemma quiet_refl f : quiet f [] f.
Proof. by split. Qed.

Lemma quiet_trans f1 ev1 f2 ev2 f3 :
  quiet f1 ev1 f2 -> quiet f2 ev2 f3 -> quiet f1 (ev1 ++ ev2) f3.
Proof.
  intros [Ha Hb] [Hc Hd]. split; [| congruence].
  rewrite forallb_app, Ha, Hc. done.
Qed.

Lemma findInTree_quiet fuel treeID prefix f :
  holds (quietIfRejected err) f (findInTree fuel treeID prefix f).
Proof.
  apply (findInTree_holds (quietIfRejected err) (fun _ => True)).
  - by intros f0 ev f' [? _].
  - intros f0. split; [done |]. intros _. apply quiet_refl.
  - intros f1 ev1 f2 ev2 f3 [[Hr1 Hp1] Ha] [[Hr2 Hp2] Hb].
    split; [split; congruence |]. intros Hbad.
    eapply quiet_trans; [by apply Ha |]. apply Hb. by rewrite Hp1.
  - intros f0 id _. split; [done |]. intros _. by split.
  - intros f0 p node r f' ev _ Htest Hprint. split.
    + apply traversal_print in Hprint as (? & ? & _). done.
    + intros Hbad. rewrite (testEntry_rejected _ node Hbad) in Htest.
      discriminate.
  - intros f0 id tree _ _. split; [done |]. intros _. by split.
  - done.
  - done.
Qed.

Lemma findInSnapshots_quiet fuel sns : forall f,
  holds (quietIfRejected err) f (findInSnapshots fuel sns f).
Proof.
  induction sns as [| sn rest IH]; intros f.
  { split; [done |]. intros _. apply quiet_refl. }
  cbn [findInSnapshots]. unfold holds. rewrite bind_eq.
  set (f0 := set_out f (set_newsn (out f) (Some sn))).
  assert (Hsn : holds (quietIfRejected err) f0 (findInSnapshot fuel sn f)).
  { unfold findInSnapshot. rewrite get_bind, put_bind. fold f0.
    destruct (sn_Tree sn) as [root |]; [apply findInTree_quiet |].
    split; [done |]. intros _. apply quiet_refl. }
  unfold holds in Hsn.
  destruct (findInSnapshot fuel sn f) as [[r1 f1] ev1]. cbn [fst snd] in *.
  destruct Hsn as [[Hr1 Hp1] Hq1].
  change (repo f0) with (repo f) in Hr1. change (pat f0) with (pat f) in Hp1.
  assert (Hfirst : quietIfRejected err f ev1 f1).
  { split; [done |]. intros Hbad. destruct (Hq1 Hbad) as [Hl Ho].
    split; [done |]. by rewrite Ho. }
  destruct r1 as [[] | x]; [| exact Hfirst].
  specialize (IH f1). unfold holds in IH.
  destruct (findInSnapshots fuel rest f1) as [[r2 f2] ev2]. cbn [fst snd] in *.
  destruct Hfirst as [_ Ha], IH as [[Hr2 Hp2] Hb].
  split; [split; congruence |]. intros Hbad.
  eapply quiet_trans; [by apply Ha |]. apply Hb. by rewrite Hp1.
Qed.

Lemma Finish_newsn o o' :
  set_newsn o' None = set_newsn o None -> Finish o' = Finish o.
Proof.
  intros Heq. unfold Finish.
  change (JSON o') with (JSON (set_newsn o' None)).
  change (oldsn o') with (oldsn (set_newsn o' None)).
  change (hits o') with (hits (set_newsn o' None)).
  change (inuse o') with (inuse (set_newsn o' None)).
  by rewrite Heq.
Qed.


End InvalidPattern.



(** * The not-found set and nested matches *)

(** C1 at a tree whose only match is nested: tree 3 holds the directory
    [sub], whose tree [T2] holds [b.txt].  Under [*.txt] the traversal of
    tree 3 reports [/sub/b.txt] and then puts tree 3 into the not-found
    set, because [found] only records matches among the entries of the
    tree itself.  A second snapshot with the same root is then skipped
    without being loaded, and its [/sub/b.txt] is not reported. *)
Theorem nested_match_enters_notfound :
  let f := ex_finder (mkFindPattern 0 0 "*.txt" false) false in
  let x := @findInTree (ex_lib []) 5 3%N sep f in
  x.1.1 = inl tt /\
  x.2 = [EvLoadTree 3%N; EvLoadTree 2%N;
         EvPrint "/sub" (file "b.txt" date_2021_06_01) None;
         EvPrintf ("/sub/b.txt" +:+ nl)] /\
  elements (notfound x.1.2) = [3%N] /\
  @runFind (ex_lib [ex_snapshot 1 "aaaa" 3%N; ex_snapshot 2 "bbbb" 3%N])
    5 ex_opts ex_text ["*.txt"] =
  (inl tt,
   [EvLoadTree 3%N; EvLoadTree 2%N;
    EvPrint "/sub" (file "b.txt" date_2021_06_01)
      (Some (ex_snapshot 1 "aaaa" 3%N));
    EvVerbosef ("Found matching entries in snapshot aaaa" +:+ nl);
    EvPrintf ("/sub/b.txt" +:+ nl)]).
Proof. repeat split; vm_compute; reflexivity. Qed.

(** * Directories outside the time window *)

(** C5 at a directory whose name matches and whose time does not: tree 5
    holds the directory [build] of 2020-01-01, whose tree holds
    [build.log] of 2021-06-01.  With [oldest] at 2020-06-01 and the
    pattern [build*], the [continue] of the time window also skips the
    recursion: tree 6 is never loaded and [/build/build.log], which
    matches and lies in the window, is not reported.  Under [*.log] the
    same directory does not match by name and is searched. *)
Theorem matching_directory_outside_window_is_not_searched :
  @runFind (ex_lib [ex_snapshot 1 "aaaa" 5%N]) 5 ex_opts_oldest ex_text
    ["build*"] = (inl tt, [EvLoadTree 5%N]) /\
  @testEntry (ex_lib [])
    (mkFindPattern date_2020_06_01 0 "build*" false)
    (file "build.log" date_2021_06_01) = Ok Accepted /\
  @runFind (ex_lib [ex_snapshot 1 "aaaa" 5%N]) 5 ex_opts_oldest ex_text
    ["*.log"] =
  (inl tt,
   [EvLoadTree 5%N; EvLoadTree 6%N;
    EvPrint "/build" (file "build.log" date_2021_06_01)
      (Some (ex_snapshot 1 "aaaa" 5%N));
    EvVerbosef ("Found matching entries in snapshot aaaa" +:+ nl);
    EvPrintf ("/build/build.log" +:+ nl)]).
Proof. repeat split; vm_compute; reflexivity. Qed.

(** * Shared trees and the not-found set *)

Lemma loads_app id ev1 ev2 :
  loads id (ev1 ++ ev2) = (loads id ev1 + loads id ev2)%nat.
Proof.
  induction ev1 as [| e ev1 IH]; [done |].
  destruct e as [id' | | | |]; cbn; try exact IH.
  destruct (N.eqb id id'); cbn; by rewrite IH.
Qed.

Lemma loads_texts id ev :
  Forall (fun e => isLoad e = false /\ isPrint e = false) ev ->
  loads id ev = O.
Proof. induction 1 as [| [] ev [? ?] _ IH]; cbn in *; done. Qed.

Section Sharing.
Context `{Lib}.
Variable r0 : Repository.
Variable p0 : findPattern.
Variable rank : ID -> nat.
Hypothesis Hacyclic : acyclic r0 rank.

Lemma once_weaken (S S' : ID -> Prop) base f :
  (forall j, S j -> S' j) -> once r0 p0 S base f -> once r0 p0 S' base f.
Proof.
  intros HS (Hr & Hp & Hj). split; [done |]. split; [done |].
  intros j Hno. destruct (Hj j Hno) as [Hle Hone]. split; [done |].
  intros Hl. destruct (Hone Hl); auto.
Qed.

Lemma onceAfter_bind {A B} S base (m : M A) (k : A -> M B) f :
  onceAfter r0 p0 S base (m f) ->
  (forall a f1 ev1, m f = (inl a, f1, ev1) ->
     onceAfter r0 p0 S (base ++ ev1) (k a f1)) ->
  onceAfter r0 p0 S base ((m ≫= k) f).
Proof.
  unfold onceAfter. rewrite bind_eq. intros Hm Hk.
  destruct (m f) as [[[a | x] f1] ev1]; cbn [fst snd] in *; [| done].
  specialize (Hk a f1 ev1 eq_refl).
  destruct (k a f1) as [[r2 f2] ev2]; cbn [fst snd] in *.
  by rewrite app_assoc.
Qed.

Lemma onceAfter_ret {A} S base (a : A) f :
  once r0 p0 S base f -> onceAfter r0 p0 S base ((mret a : M A) f).
Proof. unfold onceAfter. cbn. by rewrite app_nil_r. Qed.

Lemma onceAfter_stop {A} S base x f :
  once r0 p0 S base f -> onceAfter r0 p0 S base (@stop A x f).
Proof.
  unfold onceAfter. cbn. rewrite app_nil_r. by apply once_weaken.
Qed.

Lemma onceAfter_print S base prefix node f :
  once r0 p0 S base f -> onceAfter r0 p0 S base (callPrint prefix node f).
Proof.
  intros (Hr & Hp & Hj). unfold onceAfter. rewrite callPrint_eq.
  destruct (Print (out f) prefix node) as [[o pev] |] eqn:HP; cbn [fst snd];
    (split; [done |]); (split; [done |]); intros j Hno;
    destruct (Hj j Hno) as [Hle Hone]; rewrite loads_app; cbn [loads].
  - rewrite (loads_texts j pev (Print_events _ _ _ _ _ HP)), Nat.add_0_r.
    by split.
  - rewrite Nat.add_0_r. split; [done |]. intros _. by right.
Qed.

Lemma scanNodes_once rec prefix id S tree :
  LoadTree r0 id = Ok tree ->
  (forall sub p f base,
     (rank sub < rank id)%nat -> once r0 p0 S base f ->
     onceAfter r0 p0 S base (rec sub p f)) ->
  forall nodes found f base,
    (forall node, In node nodes -> In node (Nodes tree)) ->
    once r0 p0 S base f ->
    onceAfter r0 p0 S base (scanNodes rec prefix nodes found f) /\
    (forall f' ev,
       scanNodes rec prefix nodes found f = (inl true, f', ev) ->
       found = true \/ existsb (accepted p0) nodes = true).
Proof.
  intros Hload Hrec.
  assert (Hdesc : forall node f base,
    In node (Nodes tree) -> once r0 p0 S base f ->
    onceAfter r0 p0 S base (descend rec prefix node f)).
  { intros node f base Hin Hinv. unfold descend.
    destruct (String.eqb (Type_ node) "dir") eqn:Hdir;
      [| by apply onceAfter_ret].
    apply String.eqb_eq in Hdir.
    destruct (Subtree node) as [sub |] eqn:Hsub; [| by apply onceAfter_stop].
    apply Hrec; [| done]. eapply Hacyclic; eauto. }
  induction nodes as [| node rest IH]; intros found f base Hsub Hinv.
  { split; [by apply onceAfter_ret |]. intros f' ev [= -> _ _]. by left. }
  assert (Hin : In node (Nodes tree)) by (apply Hsub; by left).
  assert (Hrest : forall n, In n rest -> In n (Nodes tree))
    by (intros n Hn; apply Hsub; by right).
  assert (Hpat : pat f = p0) by apply Hinv.
  cbn [scanNodes existsb]. rewrite get_bind, try_bind. unfold accepted at 1.
  rewrite Hpat.
  destruct (testEntry p0 node) as [[| |] | err] eqn:Htest.
  - split.
    + apply onceAfter_bind; [by apply Hdesc |].
      intros [] f1 ev1 Hd. apply IH; [done |].
      pose proof (Hdesc node f base Hin Hinv) as Hpost.
      unfold onceAfter in Hpost. by rewrite Hd in Hpost.
    + intros f' ev Heq.
      apply bind_inv in Heq
        as [(x & _ & [=]) | ([] & f1 & ev1 & ev2 & Hd & Hs & _)].
      pose proof (Hdesc node f base Hin Hinv) as Hpost.
      unfold onceAfter in Hpost. rewrite Hd in Hpost. cbn [fst snd] in Hpost.
      by apply (IH found f1 (base ++ ev1) Hrest Hpost) in Hs.
  - by apply IH.
  - split; [| intros; by right].
    apply onceAfter_bind; [by apply onceAfter_print |].
    intros [] f1 ev1 Hprint.
    pose proof (onceAfter_print S base prefix node f Hinv) as Hpost1.
    unfold onceAfter in Hpost1. rewrite Hprint in Hpost1.
    cbn [fst snd] in Hpost1.
    apply onceAfter_bind; [by apply Hdesc |].
    intros [] f2 ev2 Hd. apply IH; [done |].
    pose proof (Hdesc node f1 (base ++ ev1) Hin Hpost1) as Hpost2.
    unfold onceAfter in Hpost2. by rewrite Hd in Hpost2.
  - split; [by apply onceAfter_stop | intros ? ? [=]].
Qed.

(** A visit keeps [once]: the trees being visited lie strictly above the
    tree that is entered. *)
Lemma findInTree_once fuel : forall id prefix f base (S : ID -> Prop),
  once r0 p0 S base f ->
  (forall j, S j -> (rank id < rank j)%nat) ->
  onceAfter r0 p0 S base (findInTree fuel id prefix f).
Proof.
  induction fuel as [| fuel IH]; intros id prefix f base S Hinv Habove.
  { by apply onceAfter_stop. }
  cbn [findInTree]. rewrite get_bind.
  destruct (decide (id ∈ notfound f)) as [Hin | Hnin].
  { by apply onceAfter_ret. }
  rewrite emit_bind, try_bind.
  destruct Hinv as (Hr & Hp & Hj). rewrite Hr.
  set (S' := fun j => S j \/ j = id).
  assert (Hinv1 : once r0 p0 S' (base ++ [EvLoadTree id]) f).
  { split; [done |]. split; [done |]. intros j Hno.
    destruct (Hj j Hno) as [Hle Hone]. rewrite loads_app. cbn [loads].
    destruct (N.eqb_spec j id) as [-> | Hne].
    - assert (Hzero : loads id base = O).
      { destruct (loads id base) as [| [| k]] eqn:Hl; [done | | lia].
        destruct (Hone eq_refl) as [? | Hs]; [done |].
        apply Habove in Hs. lia. }
      rewrite Hzero. split; [done |]. intros _. right. by right.
    - rewrite Nat.add_0_r. split; [done |].
      intros Hl. destruct (Hone Hl); [by left |]. right. by left. }
  destruct (LoadTree r0 id) as [tree | err] eqn:Hload; cycle 1.
  { unfold onceAfter. cbn [fst snd]. rewrite app_nil_r.
    eapply once_weaken; [| exact Hinv1]. done. }
  assert (Hrec : forall sub p f1 base1,
    (rank sub < rank id)%nat -> once r0 p0 S' base1 f1 ->
    onceAfter r0 p0 S' base1 (findInTree fuel sub p f1)).
  { intros sub p f1 base1 Hlt Hinv'. apply IH; [done |].
    intros j [Hs | ->]; [apply Habove in Hs; lia | done]. }
  destruct (scanNodes_once (findInTree fuel) prefix id S' tree Hload Hrec
              (Nodes tree) false f (base ++ [EvLoadTree id])
              (fun _ Hn => Hn) Hinv1) as [Hscan Hfound].
  rewrite bind_eq. unfold onceAfter in *.
  destruct (scanNodes (findInTree fuel) prefix (Nodes tree) false f)
    as [[[found | x] f1] ev1]; cbn [fst snd] in *.
  2: { by rewrite <- app_assoc in Hscan. }
  rewrite <- app_assoc in Hscan. cbn [app] in Hscan.
  destruct Hscan as (Hr1 & Hp1 & Hj1).
  destruct found; cbn [fst snd mret M_ret].
  - rewrite app_nil_r. split; [done |]. split; [done |]. intros j Hno.
    destruct (Hj1 j Hno) as [Hle Hone]. split; [done |].
    intros Hl. destruct (Hone Hl) as [? | [? | ->]]; [by left | by right |].
    destruct (Hfound _ _ eq_refl) as [[=] | Hex].
    unfold hasOwnMatch in Hno. by rewrite Hload, Hex in Hno.
  - rewrite get_bind. cbn [put fst snd]. rewrite app_nil_r.
    split; [done |]. split; [done |]. intros j Hno.
    destruct (Hj1 j Hno) as [Hle Hone]. split; [done |].
    intros Hl. cbn [notfound set_notfound].
    destruct (Hone Hl) as [Hin | [Hs | Heq]].
    + left. apply elem_of_union. by right.
    + by right.
    + left. apply elem_of_union. left. by apply elem_of_singleton.
Qed.

End Sharing.

Section Cache.
Context `{Lib}.

Lemma existsb_accepted_false p nodes :
  Forall (fun node => testEntry p node <> Ok Accepted) nodes ->
  existsb (accepted p) nodes = false.
Proof.
  induction 1 as [| node nodes Hn _ IH]; [done |]. cbn. rewrite IH.
  unfold accepted. by destruct (testEntry p node) as [[| |] |].
Qed.

Lemma callPrint_notfound prefix node f r f' ev :
  callPrint prefix node f = (r, f', ev) -> notfound f' = notfound f.
Proof.
  rewrite callPrint_eq.
  by destruct (Print (out f) prefix node) as [[o pev] |]; intros [= <- <- <-].
Qed.

(** Only trees without a match of their own enter the not-found set. *)
Lemma findInTree_cacheSound fuel treeID prefix f :
  holds cacheSound f (findInTree fuel treeID prefix f).
Proof.
  apply (findInTree_holds cacheSound (fun _ => True)).
  - by intros f0 ev f' [? _].
  - intros f0. split; [done |]. intros id. by left.
  - intros f1 ev1 f2 ev2 f3 [[Hr1 Hp1] Ha] [[Hr2 Hp2] Hb].
    split; [split; congruence |]. intros id Hin.
    destruct (Hb id Hin) as [Hin2 | Hno]; [by apply Ha |].
    right. by rewrite <- Hr1, <- Hp1.
  - intros f0 id _. split; [done |]. intros j. by left.
  - intros f0 p node r f' ev _ _ Hprint.
    pose proof (callPrint_notfound _ _ _ _ _ _ Hprint) as Hnf.
    apply traversal_print in Hprint as (Hr & Hp & _).
    split; [done |]. intros id Hin. left. by rewrite <- Hnf.
  - intros f0 id tree Hload Hall. split; [done |]. intros j Hin.
    cbn [notfound set_notfound] in Hin.
    apply elem_of_union in Hin as [->%elem_of_singleton | Hin]; [| by left].
    right. unfold hasOwnMatch. rewrite Hload.
    by apply existsb_accepted_false.
  - done.
  - done.
Qed.

End Cache.

Section Visits.
Context `{Lib}.

Lemma Print_newsn o prefix node o' ev :
  Print o prefix node = Some (o', ev) -> newsn o' = newsn o.
Proof.
  unfold Print, PrintJSON, PrintNormal. destruct (JSON o).
  - destruct (Marshal _ _ _); [| by intros [= <- _]].
    cbn [set_inuse newsn oldsn hits].
    by destruct (negb (same_sn (newsn o) (oldsn o))); intros [= <- _].
  - destruct (negb (same_sn (newsn o) (oldsn o))); [| by intros [= <- _]].
    destruct (newsn o) eqn:Hn; [| done]. by intros [= <- _].
Qed.

Lemma SinkRun_newsn o ev o' : SinkRun o ev o' -> newsn o' = newsn o.
Proof.
  induction 1 as [| | ? ? ? ? ? ? ? Hp _ IH |]; try done.
  rewrite IH. by apply Print_newsn in Hp.
Qed.

Lemma descend_traversal rec prefix node f :
  (forall sub p f, holds traversal f (rec sub p f)) ->
  holds traversal f (descend rec prefix node f).
Proof.
  intros Hrec. unfold descend.
  destruct (String.eqb _ _); [| apply traversal_refl].
  destruct (Subtree node); [apply Hrec | apply traversal_refl].
Qed.

(** A loop that runs to its end has handed every match among the entries
    to the sink, under the prefix of the tree. *)
Lemma scanNodes_reports rec prefix :
  (forall sub p f, holds traversal f (rec sub p f)) ->
  forall nodes found f b f' ev,
    scanNodes rec prefix nodes found f = (inl b, f', ev) ->
    forall node, In node nodes -> accepted (pat f) node = true ->
    In (EvPrint prefix node (newsn (out f))) ev.
Proof.
  intros Hrec. induction nodes as [| head rest IH];
    intros found f b f' ev Heq node Hin Hacc; [done |].
  cbn [scanNodes] in Heq. rewrite get_bind, try_bind in Heq.
  assert (Hstep : forall found1 f1 ev2,
    pat f1 = pat f -> newsn (out f1) = newsn (out f) ->
    (descend rec prefix head;; scanNodes rec prefix rest found1) f1
      = (inl b, f', ev2) ->
    In node rest -> In (EvPrint prefix node (newsn (out f))) ev2).
  { intros found1 f1 ev2 Hp1 Hn1 Hrun Hin'.
    apply bind_inv in Hrun
      as [(x & _ & [=]) | ([] & f2 & ev3 & ev4 & Hd & Hs & ->)].
    pose proof (descend_traversal rec prefix head f1 Hrec) as Ht.
    unfold holds in Ht. rewrite Hd in Ht. cbn [fst snd] in Ht.
    destruct Ht as (_ & Hp2 & _ & Hrun2). apply SinkRun_newsn in Hrun2.
    apply in_or_app. right. rewrite <- Hn1, <- Hrun2.
    eapply IH; [exact Hs | done |]. by rewrite Hp2, Hp1. }
  unfold accepted in Hacc.
  destruct (testEntry (pat f) head) as [[| |] | err] eqn:Htest;
    [| | | discriminate].
  - destruct Hin as [-> | Hin]; [by rewrite Htest in Hacc |].
    by apply (Hstep found f ev).
  - destruct Hin as [-> | Hin]; [by rewrite Htest in Hacc |].
    eapply IH; [exact Heq | done |]. by unfold accepted.
  - apply bind_inv in Heq
      as [(x & _ & [=]) | ([] & f1 & ev1 & ev2 & Hprint & Hrun & ->)].
    pose proof (traversal_print _ _ _ _ _ _ Hprint) as (_ & Hp1 & _ & Hs1).
    apply SinkRun_newsn in Hs1. rewrite callPrint_eq in Hprint.
    destruct (Print (out f) prefix head) as [[o pev] |];
      [| discriminate]. injection Hprint as <- <-.
    destruct Hin as [-> | Hin]; [by left |].
    apply in_or_app. right. by apply (Hstep true (set_out f o) ev2).
Qed.

(** A completed visit of a tree that is not in the not-found set loads
    the tree and reports every match among its own entries under the
    current snapshot. *)
Lemma findInTree_visit fuel id prefix f f' ev :
  findInTree fuel id prefix f = (inl tt, f', ev) ->
  id ∉ notfound f ->
  exists tree ev',
    LoadTree (repo f) id = Ok tree /\ ev = EvLoadTree id :: ev' /\
    forall node, In node (Nodes tree) -> accepted (pat f) node = true ->
      In (EvPrint prefix node (newsn (out f))) ev'.
Proof.
  destruct fuel as [| fuel]; [discriminate |].
  cbn [findInTree]. rewrite get_bind. intros Heq Hnin.
  destruct (decide (id ∈ notfound f)); [done |].
  rewrite emit_bind, try_bind in Heq.
  destruct (LoadTree (repo f) id) as [tree | err]; [| discriminate].
  destruct ((scanNodes (findInTree fuel) prefix (Nodes tree) false ≫= _) f)
    as [[r2 f2] ev2] eqn:Hrun.
  injection Heq as -> -> <-. exists tree, ev2. split; [done |]. split; [done |].
  apply bind_inv in Hrun
    as [(x & _ & [=]) | (b & f1 & ev3 & ev4 & Hs & _ & ->)].
  intros node Hin Hacc. apply in_or_app. left.
  eapply scanNodes_reports; [| exact Hs | done | done].
  intros sub p g. apply findInTree_traversal.
Qed.

End Visits.

Section Termination.
Context `{Lib}.
Variable r0 : Repository.
Variable rank : ID -> nat.
Hypothesis Hacyclic : acyclic r0 rank.

Lemma scanNodes_fuel rec prefix id tree :
  LoadTree r0 id = Ok tree ->
  (forall sub p f, holds traversal f (rec sub p f)) ->
  (forall sub p f,
     repo f = r0 -> (rank sub < rank id)%nat ->
     (rec sub p f).1.1 <> inr OutOfFuel) ->
  forall nodes found f,
    (forall node, In node nodes -> In node (Nodes tree)) ->
    repo f = r0 ->
    (scanNodes rec prefix nodes found f).1.1 <> inr OutOfFuel.
Proof.
  intros Hload Htrav Hrec.
  assert (Hdesc : forall node f,
    In node (Nodes tree) -> repo f = r0 ->
    (descend rec prefix node f).1.1 <> inr OutOfFuel).
  { intros node f Hin Hr. unfold descend.
    destruct (String.eqb (Type_ node) "dir") eqn:Hdir; [| done].
    apply String.eqb_eq in Hdir.
    destruct (Subtree node) as [sub |] eqn:Hsub; [| done].
    apply Hrec; [done |]. eapply Hacyclic; eauto. }
  induction nodes as [| node rest IH]; intros found f Hsub Hr; [done |].
  assert (Hin : In node (Nodes tree)) by (apply Hsub; by left).
  assert (Hrest : forall n, In n rest -> In n (Nodes tree))
    by (intros n Hn; apply Hsub; by right).
  assert (Hstep : forall found1 f1,
    repo f1 = r0 ->
    ((descend rec prefix node;; scanNodes rec prefix rest found1) f1).1.1
      <> inr OutOfFuel).
  { intros found1 f1 Hr1. rewrite bind_eq.
    pose proof (Hdesc node f1 Hin Hr1) as Hd.
    pose proof (descend_traversal rec prefix node f1 Htrav) as Ht.
    unfold holds in Ht.
    destruct (descend rec prefix node f1) as [[[[] | x] f2] ev2];
      cbn [fst snd] in *; [| intros [= ->]; by destruct Hd].
    destruct Ht as (Hr2 & _).
    pose proof (IH found1 f2 Hrest (eq_trans Hr2 Hr1)) as Hs.
    by destruct (scanNodes rec prefix rest found1 f2) as [[r3 f3] ev3]. }
  cbn [scanNodes]. rewrite get_bind, try_bind.
  destruct (testEntry (pat f) node) as [[| |] | err]; [| | | done].
  - by apply Hstep.
  - by apply IH.
  - rewrite bind_eq.
    destruct (callPrint prefix node f) as [[[[] | x] f1] ev1] eqn:Hprint.
    + pose proof (traversal_print _ _ _ _ _ _ Hprint) as (Hr1 & _).
      pose proof (Hstep true f1 (eq_trans Hr1 Hr)) as Hs.
      by destruct ((descend rec prefix node;; _) f1) as [[r3 f3] ev3].
    + rewrite callPrint_eq in Hprint. cbn [fst snd].
      destruct (Print (out f) prefix node) as [[o pev] |];
        injection Hprint as Hx _ _; [discriminate |]. by rewrite <- Hx.
Qed.

(** A budget above the depth of the tree is enough: the visit ends by
    itself. *)
Lemma findInTree_fuel fuel : forall id prefix f,
  repo f = r0 -> (rank id < fuel)%nat ->
  (findInTree fuel id prefix f).1.1 <> inr OutOfFuel.
Proof.
  induction fuel as [| fuel IH]; intros id prefix f Hr Hlt; [lia |].
  cbn [findInTree]. rewrite get_bind.
  destruct (decide (id ∈ notfound f)); [done |].
  rewrite emit_bind, try_bind. rewrite Hr.
  destruct (LoadTree r0 id) as [tree | err] eqn:Hload; [| by cbn].
  rewrite bind_eq.
  pose proof (scanNodes_fuel (findInTree fuel) prefix id tree Hload
    (fun sub p g => findInTree_traversal fuel sub p g)
    (fun sub p g Hg Hsub => IH sub p g Hg ltac:(lia))
    (Nodes tree) false f (fun _ Hn => Hn) Hr) as Hs.
  destruct (scanNodes (findInTree fuel) prefix (Nodes tree) false f)
    as [[[b | x] f1] ev1]; cbn [fst snd] in *.
  - by destruct b.
  - cbn. intros [= ->]. by destruct Hs.
Qed.

End Termination.

Section Run.
Context `{Lib}.
Variable r0 : Repository.
Variable p0 : findPattern.
Variable rank : ID -> nat.
Hypothesis Hacyclic : acyclic r0 rank.

Lemma findInSnapshots_once fuel sns : forall f base,
  once r0 p0 (fun _ => False) base f ->
  onceAfter r0 p0 (fun _ => False) base (findInSnapshots fuel sns f).
Proof.
  induction sns as [| sn rest IH]; intros f base Hinv.
  { by apply onceAfter_ret. }
  cbn [findInSnapshots].
  assert (Hsn : onceAfter r0 p0 (fun _ => False) base
                  (findInSnapshot fuel sn f)).
  { unfold findInSnapshot. rewrite get_bind, put_bind.
    destruct (sn_Tree sn) as [root |]; [| by apply onceAfter_stop].
    by apply (findInTree_once r0 p0 rank Hacyclic). }
  apply onceAfter_bind; [exact Hsn |]. intros [] f1 ev1 Heq.
  apply IH. unfold onceAfter in Hsn. by rewrite Heq in Hsn.
Qed.

Lemma findInSnapshots_cacheSound fuel sns : forall f,
  holds cacheSound f (findInSnapshots fuel sns f).
Proof.
  induction sns as [| sn rest IH]; intros f.
  { split; [done |]. intros id. by left. }
  cbn [findInSnapshots]. unfold holds. rewrite bind_eq.
  assert (Hsn : holds cacheSound f (findInSnapshot fuel sn f)).
  { unfold findInSnapshot. rewrite get_bind, put_bind.
    destruct (sn_Tree sn) as [root |].
    - exact (findInTree_cacheSound fuel root sep
               (set_out f (set_newsn (out f) (Some sn)))).
    - split; [done |]. intros id. by left. }
  unfold holds in Hsn.
  destruct (findInSnapshot fuel sn f) as [[[[] | x] f1] ev1];
    cbn [fst snd] in *; [| exact Hsn].
  specialize (IH f1). unfold holds in IH.
  destruct (findInSnapshots fuel rest f1) as [[r2 f2] ev2].
  cbn [fst snd] in *.
  destruct Hsn as [[Hr1 Hp1] Ha], IH as [[Hr2 Hp2] Hb].
  split; [split; congruence |]. intros id Hin.
  destruct (Hb id Hin) as [Hin1 | Hno]; [by apply Ha |].
  right. by rewrite <- Hr1, <- Hp1.
Qed.

Lemma findInSnapshots_fuel fuel sns : forall f,
  repo f = r0 ->
  (forall sn root, In sn sns -> sn_Tree sn = Some root ->
     (rank root < fuel)%nat) ->
  (findInSnapshots fuel sns f).1.1 <> inr OutOfFuel.
Proof.
  induction sns as [| sn rest IH]; intros f Hr Hfuel; [done |].
  cbn [findInSnapshots]. rewrite bind_eq.
  pose proof (findInSnapshot_traversal fuel sn f) as Ht. unfold holds in Ht.
  assert (Hsn : (findInSnapshot fuel sn f).1.1 <> inr OutOfFuel).
  { unfold findInSnapshot. rewrite get_bind, put_bind.
    destruct (sn_Tree sn) as [root |] eqn:Hroot; [| done].
    apply (findInTree_fuel r0 rank Hacyclic); [done |].
    apply (Hfuel sn); [by left | done]. }
  destruct (findInSnapshot fuel sn f) as [[[[] | x] f1] ev1];
    cbn [fst snd] in *.
  - destruct Ht as (Hr1 & _). cbn [repo set_out] in Hr1.
    assert (Hrest : (findInSnapshots fuel rest f1).1.1 <> inr OutOfFuel).
    { apply IH; [congruence |]. intros s root Hin. apply Hfuel. by right. }
    by destruct (findInSnapshots fuel rest f1) as [[r2 f2] ev2].
  - exact Hsn.
Qed.

Lemma rootedAt_cons root sn rest :
  rootedAt root (sn :: rest) =
  ((if match sn_Tree sn with
       | Some id => N.eqb id root
       | None => false
       end then 1 else 0) + rootedAt root rest)%nat.
Proof.
  unfold rootedAt. cbn [List.filter].
  by destruct (match sn_Tree sn with Some id => _ | None => _ end).
Qed.

Lemma findInSnapshots_reports fuel sns : forall f f' ev,
  repo f = r0 -> pat f = p0 ->
  (forall j, j ∈ notfound f -> hasOwnMatch r0 p0 j = false) ->
  findInSnapshots fuel sns f = (inl tt, f', ev) ->
  forall root, hasOwnMatch r0 p0 root = true ->
    (rootedAt root sns <= loads root ev)%nat /\
    forall sn node,
      In sn sns -> sn_Tree sn = Some root -> accepted p0 node = true ->
      (exists tree, LoadTree r0 root = Ok tree /\ In node (Nodes tree)) ->
      In (EvPrint sep node (Some sn)) ev.
Proof.
  induction sns as [| sn rest IH]; intros f f' ev Hr Hp Hnf Heq root Hown.
  { split; [cbn; lia | done]. }
  cbn [findInSnapshots] in Heq.
  apply bind_inv in Heq
    as [(x & _ & [=]) | ([] & f1 & ev1 & ev2 & Hsn & Hrest & ->)].
  pose proof (findInSnapshot_traversal fuel sn f) as Ht.
  unfold holds in Ht. rewrite Hsn in Ht. cbn [fst snd] in Ht.
  destruct Ht as (Hr1 & Hp1 & _). cbn [repo pat set_out] in Hr1, Hp1.
  unfold findInSnapshot in Hsn. rewrite get_bind, put_bind in Hsn.
  set (f0 := set_out f (set_newsn (out f) (Some sn))) in *.
  destruct (sn_Tree sn) as [root0 |] eqn:Hroot; [| discriminate].
  pose proof (findInTree_cacheSound fuel root0 sep f0) as [_ Hcache].
  rewrite Hsn in Hcache. cbn [fst snd] in Hcache.
  assert (Hnf1 : forall j, j ∈ notfound f1 -> hasOwnMatch r0 p0 j = false).
  { intros j Hin. destruct (Hcache j Hin) as [Hin0 | Hno].
    - by apply Hnf.
    - change (repo f0) with (repo f) in Hno.
      change (pat f0) with (pat f) in Hno. by rewrite Hr, Hp in Hno. }
  destruct (IH f1 f' ev2 (eq_trans Hr1 Hr) (eq_trans Hp1 Hp) Hnf1 Hrest
              root Hown) as [Hcount Hrep].
  assert (Hvisit : root0 = root ->
    exists tree ev', LoadTree r0 root = Ok tree /\
      ev1 = EvLoadTree root :: ev' /\
      forall node, In node (Nodes tree) -> accepted p0 node = true ->
        In (EvPrint sep node (Some sn)) ev').
  { intros ->. rewrite <- Hr, <- Hp.
    apply (findInTree_visit fuel root sep f0 f1 ev1 Hsn).
    intros Hin. apply Hnf in Hin. congruence. }
  split.
  - rewrite rootedAt_cons, Hroot, loads_app.
    destruct (N.eqb_spec root0 root) as [Heq | Hne]; [| cbn; lia].
    destruct (Hvisit Heq) as (tree & ev' & _ & -> & _).
    cbn [loads]. rewrite N.eqb_refl. lia.
  - intros s node [<- | Hin] Hs Hacc (tree & Hload & Hnode);
      apply in_or_app.
    + left. assert (Heq : root0 = root) by congruence.
      destruct (Hvisit Heq) as (tree' & ev' & Hload' & -> & Hall).
      right. apply Hall; [| done]. congruence.
    + right. apply (Hrep s node Hin Hs Hacc). by exists tree.
Qed.

End Run.


Lemma ex_acyclic : acyclic (storeOf ex_objects) ex_rank.
Proof.
  intros id tree node sub Hload Hin Hdir Hsub. cbn in Hload.
  destruct (ex_objects !! id) as [t |] eqn:E; [| discriminate].
  injection Hload as ->. unfold ex_objects in E.
  repeat (rewrite lookup_insert in E; case_decide as Hd;
          [ subst id; injection E as <-; cbn in Hin;
            repeat (destruct Hin as [<- | Hin]);
            cbn in Hdir, Hsub; try discriminate; try contradiction;
            injection Hsub as <-; cbn; lia | clear Hd ]).
  by rewrite lookup_empty in E.
Qed.



(** * Two remarks *)

(** As long as it does not overflow, the hit counter is the number of
    increments. *)
Lemma bump_small n : Z.of_nat n < 2 ^ 63 -> bump n = Z.of_nat n.
Proof.
  induction n as [| n IH]; [done |]. intros Hn. cbn [bump].
  rewrite IH by lia. unfold wrap64.
  rewrite Z.mod_small by lia. lia.
Qed.

(** An error of the recursive call ends the loop at once: nothing of the
    remaining entries is looked at.  (Shown for an entry whose name does
    not match; after a match the same holds once [Print] is done.) *)
Lemma recursion_error_propagates `{Lib} rec prefix node rest found f x f' ev :
  testEntry (pat f) node = Ok NoMatch ->
  descend rec prefix node f = (inr x, f', ev) ->
  scanNodes rec prefix (node :: rest) found f = (inr x, f', ev).
Proof.
  intros Htest Hd. cbn [scanNodes].
  by rewrite get_bind, try_bind, Htest, bind_eq, Hd.
Qed.

(** * What the search reports, enters and skips *)

Section Reports.
Context `{Lib}.

Lemma accepted_iff p node :
  accepted p node = true <-> testEntry p node = Ok Accepted.
Proof.
  unfold accepted. destruct (testEntry p node) as [[| |] |]; split; done.
Qed.

Lemma findInTree_faithful fuel treeID prefix f :
  holds faithful f (findInTree fuel treeID prefix f).
Proof.
  apply (findInTree_holds faithful (fun _ => True)).
  - by intros f0 ev f' [? _].
  - intros f0. by repeat split.
  - intros f1 ev1 f2 ev2 f3 [[Hr1 Hp1] [Hn1 Ha]] [[Hr2 Hp2] [Hn2 Hb]].
    split; [split; congruence |]. split; [congruence |].
    apply Forall_app. split; [done |]. by rewrite <- Hp1, <- Hn1.
  - intros f0 id _. repeat split; try done. by repeat constructor.
  - intros f0 p node r f' ev _ Htest Hprint.
    pose proof (traversal_print _ _ _ _ _ _ Hprint) as (Hr & Hp & _ & Hrun).
    split; [done |]. split; [by apply SinkRun_newsn in Hrun |].
    rewrite callPrint_eq in Hprint.
    destruct (Print (out f0) p node) as [[o pev] |] eqn:HP;
      injection Hprint as _ _ Hev; rewrite <- Hev; constructor;
      try (split; [by apply accepted_iff | done]); [| constructor].
    apply Print_events in HP. eapply Forall_impl; [exact HP |].
    by intros [] [? ?].
  - intros f0 id tree _ _. repeat split; try done.
  - done.
  - done.
Qed.


Lemma scanNodes_traversal fuel prefix nodes found f :
  holds traversal f (scanNodes (findInTree fuel) prefix nodes found f).
Proof.
  apply (scanNodes_holds traversal (fun _ => True)).
  - by intros f0 ev f' (? & ? & _).
  - apply traversal_refl.
  - apply traversal_trans.
  - intros f0 p node r f' ev _ _. apply traversal_print.
  - done.
  - done.
  - intros sub p g _. apply findInTree_traversal.
Qed.

(** A completed visit leaves its tree in the not-found set or has loaded
    it. *)
Lemma findInTree_enters fuel id prefix f f' ev :
  findInTree fuel id prefix f = (inl tt, f', ev) ->
  id ∈ notfound f' \/ In (EvLoadTree id) ev.
Proof.
  destruct fuel as [| fuel]; [discriminate |].
  cbn [findInTree]. rewrite get_bind.
  destruct (decide (id ∈ notfound f)) as [Hin | _].
  - intros [= <- _]. by left.
  - rewrite emit_bind.
    destruct ((try (LoadTree (repo f) id) ≫= _) f) as [[r2 f2] ev2].
    intros [= _ _ <-]. right. by left.
Qed.

Lemma scanNodes_descends fuel prefix :
  forall nodes found f b f' ev,
    scanNodes (findInTree fuel) prefix nodes found f = (inl b, f', ev) ->
    forall node sub,
      In node nodes -> Type_ node = "dir" -> Subtree node = Some sub ->
      testEntry (pat f) node <> Ok Skipped ->
      sub ∈ notfound f' \/ In (EvLoadTree sub) ev.
Proof.
  induction nodes as [| head rest IH];
    intros found f b f' ev Heq node sub Hin Hdir Hsub Hskip; [done |].
  cbn [scanNodes] in Heq. rewrite get_bind, try_bind in Heq.
  assert (Hstep : forall found1 f1 ev2,
    pat f1 = pat f ->
    (descend (findInTree fuel) prefix head;;
     scanNodes (findInTree fuel) prefix rest found1) f1 = (inl b, f', ev2) ->
    sub ∈ notfound f' \/ In (EvLoadTree sub) ev2).
  { intros found1 f1 ev2 Hp1 Hrun.
    apply bind_inv in Hrun
      as [(x & _ & [=]) | ([] & f2 & ev3 & ev4 & Hd & Hs & ->)].
    pose proof (descend_traversal (findInTree fuel) prefix head f1
      (fun s p g => findInTree_traversal fuel s p g)) as Ht.
    unfold holds in Ht. rewrite Hd in Ht. cbn [fst snd] in Ht.
    destruct Ht as (_ & Hp2 & _).
    assert (Hmono : notfound f2 ⊆ notfound f').
    { pose proof (scanNodes_traversal fuel prefix rest found1 f2) as Hh.
      unfold holds in Hh. rewrite Hs in Hh. by destruct Hh as (_ & _ & ? & _). }
    destruct Hin as [-> | Hin].
    - unfold descend in Hd.
      rewrite Hdir, Hsub in Hd. cbn [String.eqb Ascii.eqb Bool.eqb] in Hd.
      apply findInTree_enters in Hd as [Hd | Hd].
      + left. by apply Hmono.
      + right. apply in_or_app. by left.
    - destruct (IH found1 f2 b f' ev4 Hs node sub Hin Hdir Hsub) as [? | ?].
      + by rewrite Hp2, Hp1.
      + by left.
      + right. apply in_or_app. by right. }
  destruct (testEntry (pat f) head) as [[| |] | err] eqn:Htest;
    [| | | discriminate].
  - by apply (Hstep found f ev).
  - destruct Hin as [-> | Hin]; [done |].
    by apply (IH found f b f' ev Heq node sub).
  - apply bind_inv in Heq
      as [(x & _ & [=]) | ([] & f1 & ev1 & ev2 & Hprint & Hrun & ->)].
    pose proof (traversal_print _ _ _ _ _ _ Hprint) as (_ & Hp1 & _).
    destruct (Hstep true f1 ev2 Hp1 Hrun) as [? | ?]; [by left |].
    right. apply in_or_app. by right.
Qed.

(** X2: in a completed visit of a tree, every directory entry that the
    time window did not skip has been entered: its subtree was loaded
    during the visit, or it is in the not-found set and was for that
    reason passed over. *)
Theorem directories_are_entered fuel id prefix f f' ev tree node sub :
  findInTree fuel id prefix f = (inl tt, f', ev) ->
  id ∉ notfound f ->
  LoadTree (repo f) id = Ok tree ->
  In node (Nodes tree) -> Type_ node = "dir" -> Subtree node = Some sub ->
  testEntry (pat f) node <> Ok Skipped ->
  sub ∈ notfound f' \/ In (EvLoadTree sub) ev.
Proof.
  destruct fuel as [| fuel]; [discriminate |].
  cbn [findInTree]. rewrite get_bind. intros Heq Hnin Hload Hin Hdir Hsub Hskip.
  destruct (decide (id ∈ notfound f)); [done |].
  rewrite emit_bind, try_bind, Hload in Heq.
  destruct ((scanNodes (findInTree fuel) prefix (Nodes tree) false ≫= _) f)
    as [[r2 f2] ev2] eqn:Hrun.
  injection Heq as -> -> <-.
  apply bind_inv in Hrun
    as [(x & _ & [=]) | (b & f1 & ev3 & ev4 & Hs & Hend & ->)].
  assert (Hmono : notfound f1 ⊆ notfound f').
  { destruct b; cbn in Hend.
    - by injection Hend as <- _.
    - injection Hend as <- _. cbn. set_solver. }
  destruct (scanNodes_descends fuel prefix _ _ _ _ _ _ Hs node sub
              Hin Hdir Hsub Hskip) as [Hnf | Hld].
  - left. by apply Hmono.
  - right. right. apply in_or_app. by left.
Qed.

(** The loop ends with [found] set only when it started so or some entry
    was accepted. *)
Lemma scanNodes_found fuel prefix :
  forall nodes found f f' ev,
    scanNodes (findInTree fuel) prefix nodes found f = (inl true, f', ev) ->
    found = true \/ existsb (accepted (pat f)) nodes = true.
Proof.
  induction nodes as [| head rest IH]; intros found f f' ev Heq.
  { injection Heq as -> _ _. by left. }
  cbn [scanNodes existsb] in *. rewrite get_bind, try_bind in Heq.
  unfold accepted at 1.
  destruct (testEntry (pat f) head) as [[| |] | err] eqn:Htest;
    [| | by right | discriminate].
  - apply bind_inv in Heq
      as [(x & _ & [=]) | ([] & f1 & ev1 & ev2 & Hd & Hs & _)].
    pose proof (descend_traversal (findInTree fuel) prefix head f
      (fun s p g => findInTree_traversal fuel s p g)) as Ht.
    unfold holds in Ht. rewrite Hd in Ht. destruct Ht as (_ & Hp1 & _).
    cbn [fst snd] in Hp1. apply IH in Hs. by rewrite Hp1 in Hs.
  - by apply IH in Heq.
Qed.

(** A completed visit of a tree without a match of its own leaves the
    tree in the not-found set. *)
Lemma findInTree_caches fuel id prefix f f' ev :
  findInTree fuel id prefix f = (inl tt, f', ev) ->
  hasOwnMatch (repo f) (pat f) id = false ->
  id ∈ notfound f'.
Proof.
  destruct fuel as [| fuel]; [discriminate |].
  cbn [findInTree]. rewrite get_bind. intros Heq Hno.
  destruct (decide (id ∈ notfound f)) as [Hin | _].
  { by injection Heq as <- _. }
  rewrite emit_bind, try_bind in Heq. unfold hasOwnMatch in Hno.
  destruct (LoadTree (repo f) id) as [tree | err]; [| discriminate].
  destruct ((scanNodes (findInTree fuel) prefix (Nodes tree) false ≫= _) f)
    as [[r2 f2] ev2] eqn:Hrun.
  injection Heq as -> -> _.
  apply bind_inv in Hrun
    as [(x & _ & [=]) | (b & f1 & ev3 & ev4 & Hs & Hend & _)].
  destruct b.
  - apply scanNodes_found in Hs as [[=] | Hex]. congruence.
  - rewrite get_bind in Hend. injection Hend as <- _. cbn. set_solver.
Qed.

Lemma findInSnapshots_notfound_mono fuel sns : forall f,
  notfound f ⊆ notfound (findInSnapshots fuel sns f).1.2.
Proof.
  induction sns as [| sn rest IH]; intros f; [done |].
  cbn [findInSnapshots]. rewrite bind_eq.
  pose proof (findInSnapshot_traversal fuel sn f) as Ht. unfold holds in Ht.
  destruct (findInSnapshot fuel sn f) as [[[[] | x] f1] ev1];
    cbn [fst snd] in *; destruct Ht as (_ & _ & Hnf & _); [| done].
  specialize (IH f1).
  destruct (findInSnapshots fuel rest f1) as [[r2 f2] ev2].
  cbn [fst snd] in *. cbn [notfound set_out] in Hnf. set_solver.
Qed.

(** X3: once a tree without a match of its own has been visited to the
    end, it is skipped for the rest of the run: whatever is searched
    afterwards, a later visit of that tree returns at once, loads
    nothing, reports nothing and changes nothing. *)
Theorem visited_tree_is_skipped fuel id prefix f f1 ev :
  findInTree fuel id prefix f = (inl tt, f1, ev) ->
  hasOwnMatch (repo f) (pat f) id = false ->
  forall fuel2 sns fuel3 prefix3,
    let f2 := (findInSnapshots fuel2 sns f1).1.2 in
    findInTree (S fuel3) id prefix3 f2 = (inl tt, f2, []).
Proof.
  intros Heq Hno fuel2 sns fuel3 prefix3 f2.
  pose proof (findInTree_caches _ _ _ _ _ _ Heq Hno) as Hin.
  apply (findInSnapshots_notfound_mono fuel2 sns f1) in Hin. fold f2 in Hin.
  cbn [findInTree]. rewrite get_bind.
  by destruct (decide (id ∈ notfound f2)).
Qed.

End Reports.

(** Tree 1 under [*.txt]: its directory [sub] is entered, tree 2 is
    loaded. *)
Lemma directories_are_entered_witness :
  let f := ex_finder (mkFindPattern 0 0 "*.txt" false) false in
  let x := @findInTree (ex_lib []) 5 1%N sep f in
  2%N ∈ notfound x.1.2 \/ In (EvLoadTree 2%N) x.2.
Proof.
  intros f x.
  apply (@directories_are_entered (ex_lib []) 5 1%N sep f x.1.2 x.2 ex_T1
           (dir "sub" date_2020_01_01 2%N) 2%N).
  - vm_compute. reflexivity.
  - apply not_elem_of_empty.
  - reflexivity.
  - right. by left.
  - reflexivity.
  - reflexivity.
  - discriminate.
Defined.

(** Tree 3 under [*.log] has no match; after its visit and the search of
    a snapshot rooted at tree 1, a visit of tree 3 is a skip. *)
Lemma visited_tree_is_skipped_witness :
  let f := ex_finder (mkFindPattern 0 0 "*.log" false) false in
  let f1 := (@findInTree (ex_lib []) 5 3%N sep f).1.2 in
  let f2 := (@findInSnapshots (ex_lib []) 5 [ex_snapshot 1 "aaaa" 1%N] f1).1.2 in
  @findInTree (ex_lib []) 1 3%N "/other" f2 = (inl tt, f2, []).
Proof.
  intros f f1 f2.
  apply (@visited_tree_is_skipped (ex_lib []) 5 3%N sep f f1
           (@findInTree (ex_lib []) 5 3%N sep f).2).
  - vm_compute. reflexivity.
  - vm_compute. reflexivity.
Defined.

(** * Time bounds and configuration errors *)

Section Configuration.
Context `{Lib}.

Lemma parseTimeIn_first formats str :
  match parseTimeIn formats str with
  | Ok t =>
      exists before fmt after,
        formats = before ++ fmt :: after /\
        ParseInLocation fmt str = Ok t /\
        Forall (fun l => exists e, ParseInLocation l str = Err e) before
  | Err e =>
      e = Fatal ("unable to parse time: " +:+ Quote str) /\
      Forall (fun l => exists e', ParseInLocation l str = Err e') formats
  end.
Proof.
  induction formats as [| fmt rest IH]; cbn [parseTimeIn]; [by split |].
  destruct (ParseInLocation fmt str) as [t | e] eqn:Hfmt.
  - exists [], fmt, rest. by repeat split.
  - destruct (parseTimeIn rest str) as [t | e'].
    + destruct IH as (before & fmt' & after & -> & Hok & Hall).
      exists (fmt :: before), fmt', after. repeat split; [done |].
      constructor; [by exists e | done].
    + destruct IH as [-> Hall]. split; [done |].
      constructor; [by exists e | done].
Qed.

(** X4: [parseTime] tries the layouts of [timeFormats] in their order and
    returns the time of the first layout that parses the string, even
    when later layouts would parse it differently.  When no layout parses
    it, the result is the fatal error that quotes the string; the errors
    of the single layouts are dropped. *)
Theorem parseTime_first_layout str :
  match parseTime str with
  | Ok t =>
      exists before fmt after,
        timeFormats = before ++ fmt :: after /\
        ParseInLocation fmt str = Ok t /\
        Forall (fun l => exists e, ParseInLocation l str = Err e) before
  | Err e =>
      e = Fatal ("unable to parse time: " +:+ Quote str) /\
      Forall (fun l => exists e', ParseInLocation l str = Err e') timeFormats
  end.
Proof. apply parseTimeIn_first. Qed.

(** X5: a run that fails before the traversal does nothing to the
    outside, and the first failing step decides the error, in the order
    of the source: the argument count, the oldest bound, the newest
    bound, the repository, its lock (unless [NoLock] is set, in which
    case the lock is not even looked at) and its index.  An empty bound
    is not parsed. *)
Theorem configuration_errors fuel opts gopts args :
  let bad (s : string) : option error :=
    if String.eqb s EmptyString then None
    else match parseTime s with
         | Err e => Some e
         | Ok _ => None
         end in
  let stopped e := runFind fuel opts gopts args = (inr (Failed e), []) in
  (length args <> 1%nat -> stopped (Fatal "wrong number of arguments")) /\
  (length args = 1%nat ->
   (forall e, bad (Oldest opts) = Some e -> stopped e) /\
   (bad (Oldest opts) = None ->
    (forall e, bad (Newest opts) = Some e -> stopped e) /\
    (bad (Newest opts) = None ->
     (forall e, OpenRepository gopts = Err e -> stopped e) /\
     (forall r,
        OpenRepository gopts = Ok r ->
        (forall e, NoLock gopts = false -> lockRepo r = Some e -> stopped e) /\
        (NoLock gopts = true \/ lockRepo r = None ->
         forall e, LoadIndex r = Some e -> stopped e))))).
Proof.
  intros bad stopped. subst stopped. unfold runFind, makePattern. split.
  - destruct args as [| arg [| ? ?]]; done.
  - intros Hlen. destruct args as [| arg [| ? ?]]; try done. clear Hlen.
    subst bad. cbn beta.
    destruct (String.eqb (Oldest opts) EmptyString);
      [| destruct (parseTime (Oldest opts)) as [o | eo]].
    3: { split; [by intros e [= <-] | done]. }
    all: split; [done |]; intros _;
      (destruct (String.eqb (Newest opts) EmptyString);
       [| destruct (parseTime (Newest opts)) as [n | en]]).
    3, 6: split; [by intros e [= <-] | done].
    all: split; [done |]; intros _; unfold openAndLock;
      (split; [by intros e -> |]); intros r ->;
      (split; [by intros e -> -> |]); intros Hlock e Hidx;
      destruct Hlock as [-> | Hl]; rewrite ?Hl, ?Hidx;
      try done; by destruct (NoLock gopts).
Qed.

End Configuration.

(** * Warnings and headers *)

Section Modes.
Context `{Lib}.

Lemma warnings_app ev1 ev2 :
  warnings (ev1 ++ ev2) = (warnings ev1 + warnings ev2)%nat.
Proof. unfold warnings. by rewrite List.filter_app, length_app. Qed.

Lemma headers_app ev1 ev2 :
  headers (ev1 ++ ev2) = (headers ev1 + headers ev2)%nat.
Proof. unfold headers. by rewrite List.filter_app, length_app. Qed.

Lemma unrendered_app ev1 ev2 :
  unrendered (ev1 ++ ev2) = (unrendered ev1 + unrendered ev2)%nat.
Proof. unfold unrendered. by rewrite List.filter_app, length_app. Qed.

Lemma unrendered_texts ev :
  Forall (fun e => isLoad e = false /\ isPrint e = false) ev ->
  unrendered ev = O.
Proof. induction 1 as [| [] ev [? ?] _ IH]; cbn in *; done. Qed.

(** What one call of [Print] writes besides the result stream. *)
Lemma Print_modes o prefix node o' pev :
  Print o prefix node = Some (o', pev) ->
  JSON o' = JSON o /\
  if JSON o
  then headers pev = O /\
       warnings pev = (if marshals prefix node then 0 else 1)%nat
  else warnings pev = O.
Proof.
  unfold Print. destruct (JSON o) eqn:Hj.
  - intros [= Hp]. unfold marshals.
    destruct (Marshal _ _ _) as [b | err] eqn:Hm.
    + rewrite (PrintJSON_ok o prefix node b Hm) in Hp. cbn zeta in Hp.
      destruct (same_sn (newsn o) (oldsn o)); injection Hp as <- <-;
        (split; [done |]);
        destruct (inuse o), (0 <? hits o), (oldsn o); by cbn.
    + unfold PrintJSON in Hp. rewrite Hm in Hp. by injection Hp as <- <-.
  - unfold PrintNormal.
    destruct (negb (same_sn (newsn o) (oldsn o))).
    + destruct (newsn o); [| discriminate]. intros [= <- <-].
      split; [done |]. by destruct (oldsn o).
    + by intros [= <- <-].
Qed.

Lemma SinkRun_modes o ev o' :
  SinkRun o ev o' ->
  JSON o' = JSON o /\
  if JSON o
  then headers ev = O /\ warnings ev = unrendered ev
  else warnings ev = O.
Proof.
  induction 1 as [o | o id ev o' _ IH | o prefix node o1 pev ev o' Hp _ IH
                  | o prefix node ev o' Hp _ IH].
  - split; [done |]. by destruct (JSON o).
  - exact IH.
  - pose proof (Print_events _ _ _ _ _ Hp) as Htexts.
    apply Print_modes in Hp as [Hj Hstep]. rewrite Hj in IH.
    destruct IH as [Hj' IH]. split; [done |].
    change (EvPrint prefix node (newsn o) :: pev ++ ev)
      with ([EvPrint prefix node (newsn o)] ++ pev ++ ev).
    rewrite !warnings_app, !headers_app, !unrendered_app.
    rewrite (unrendered_texts pev Htexts).
    destruct (JSON o).
    + destruct Hstep as [Hh Hw], IH as [Hh' Hw'].
      rewrite Hh, Hh', Hw, Hw'. split; [done |].
      unfold unrendered at 1. cbn. by destruct (marshals prefix node).
    + by rewrite Hstep, IH.
  - unfold Print in Hp. destruct (JSON o) eqn:Hj; [discriminate |].
    destruct IH as [Hj' IH]. by split.
Qed.

(** X6: the two modes keep to their own channels.  In structured mode a
    run writes no header and no blank line, and it warns once for each
    match that could not be rendered and never otherwise; in text mode
    it never warns. *)
Theorem modes_keep_their_channels fuel sns : forall f,
  let x := findInSnapshots fuel sns f in
  if JSON (out f)
  then headers x.2 = O /\ warnings x.2 = unrendered x.2
  else warnings x.2 = O.
Proof.
  induction sns as [| sn rest IH]; intros f; cbn zeta.
  { by destruct (JSON (out f)). }
  cbn [findInSnapshots]. rewrite bind_eq.
  pose proof (findInSnapshot_traversal fuel sn f) as Ht. unfold holds in Ht.
  destruct (findInSnapshot fuel sn f) as [[r1 f1] ev1]. cbn [fst snd] in Ht.
  destruct Ht as (_ & _ & _ & Hrun). cbn [out set_out] in Hrun.
  apply SinkRun_modes in Hrun as [Hj Hfirst].
  change (JSON (set_newsn (out f) (Some sn))) with (JSON (out f)) in *.
  destruct r1 as [[] | x]; [| exact Hfirst].
  specialize (IH f1). cbn zeta in IH. rewrite Hj in IH.
  destruct (findInSnapshots fuel rest f1) as [[r2 f2] ev2]. cbn [fst snd] in *.
  rewrite warnings_app, headers_app, unrendered_app.
  destruct (JSON (out f)).
  - destruct Hfirst as [-> ->], IH as [-> ->]. done.
  - by rewrite Hfirst, IH.
Qed.

End Modes.

(** * The output as a whole *)

Lemma string_app_assoc (a b c : string) : (a +:+ b) +:+ c = a +:+ b +:+ c.
Proof.
  induction a as [| x a IH]; [done |].
  change (String x ((a +:+ b) +:+ c) = String x (a +:+ b +:+ c)).
  by rewrite IH.
Qed.

Lemma string_app_nil_r (a : string) : a +:+ EmptyString = a.
Proof.
  induction a as [| x a IH]; [done |].
  change (String x (a +:+ EmptyString) = String x a). by rewrite IH.
Qed.

Lemma concat_nil_cons (x : string) (l : list string) :
  String.concat EmptyString (x :: l) = x +:+ String.concat EmptyString l.
Proof. destruct l; cbn; [by rewrite string_app_nil_r | done]. Qed.

Lemma concat_nil_app (l1 l2 : list string) :
  String.concat EmptyString (l1 ++ l2) =
  String.concat EmptyString l1 +:+ String.concat EmptyString l2.
Proof.
  induction l1 as [| x l1 IH]; [done |].
  rewrite <- app_comm_cons, !concat_nil_cons, IH. by rewrite string_app_assoc.
Qed.

Lemma concat_snoc (s x : string) (l : list string) :
  l <> [] ->
  String.concat s (l ++ [x]) = String.concat s l +:+ s +:+ x.
Proof.
  induction l as [| y l IH]; [done |]. intros _.
  destruct l as [| z l]; [done |].
  change (String.concat s ((y :: z :: l) ++ [x]))
    with (y +:+ s +:+ String.concat s ((z :: l) ++ [x])).
  rewrite IH by done.
  change (String.concat s (y :: z :: l))
    with (y +:+ s +:+ String.concat s (z :: l)).
  by rewrite !string_app_assoc.
Qed.

(** Joining with a separator is closing all elements but the last with
    it. *)
Lemma concat_sep_snoc (s x : string) (l : list string) :
  String.concat s (l ++ [x]) =
  String.concat EmptyString (map (fun y => y +:+ s) l) +:+ x.
Proof.
  induction l as [| y l IH]; [reflexivity |].
  cbn [map]. rewrite concat_nil_cons, !string_app_assoc, <- IH.
  destruct l; reflexivity.
Qed.

Lemma snoc_case {A} (l : list A) : l = [] \/ exists l' x, l = l' ++ [x].
Proof.
  induction l as [| y l IH] using rev_ind; [by left |]. right. by exists l, y.
Qed.

(** ** Grouping from either end *)

Lemma cons_snoc r1 gs r :
  consGroup r1 (snocGroup gs r) = snocGroup (consGroup r1 gs) r.
Proof.
  destruct gs as [| [h bs] [| g' gs']].
  - cbn. rewrite (Nat.eqb_sym (sn_addr r.1)).
    by destruct (Nat.eqb (sn_addr r1.1) (sn_addr r.1)).
  - cbn [snocGroup consGroup].
    destruct (Nat.eqb (sn_addr r1.1) (sn_addr h)) eqn:E1;
      destruct (Nat.eqb (sn_addr r.1) (sn_addr h)) eqn:E2;
      cbn [snocGroup consGroup fst snd]; rewrite ?E1, ?E2; try done;
      apply Nat.eqb_eq in E1; by rewrite E1, E2.
  - cbn [snocGroup consGroup].
    by destruct (Nat.eqb (sn_addr r1.1) (sn_addr h)).
Qed.

Lemma groupRecords_snoc rs r :
  groupRecords (rs ++ [r]) = snocGroup (groupRecords rs) r.
Proof.
  induction rs as [| r1 rs IH]; [done |].
  cbn [app groupRecords fold_right]. fold (groupRecords (rs ++ [r])).
  fold (groupRecords rs). by rewrite IH, cons_snoc.
Qed.

Lemma snocGroup_last gs h bs r :
  snocGroup (gs ++ [(h, bs)]) r =
  gs ++ (if Nat.eqb (sn_addr r.1) (sn_addr h) then [(h, bs ++ [r.2])]
         else [(h, bs); (r.1, [r.2])]).
Proof.
  induction gs as [| [h' bs'] gs IH]; [done |].
  cbn [app snocGroup]. rewrite IH.
  destruct (gs ++ [(h, bs)]) eqn:E; [| done].
  by apply app_eq_nil in E as [_ [=]].
Qed.

(** No group is larger than the list of records. *)
Lemma group_size rs : forall g,
  In g (groupRecords rs) -> (length g.2 <= length rs)%nat.
Proof.
  induction rs as [| r rs IH]; intros g; [done |].
  cbn [groupRecords fold_right]. fold (groupRecords rs). unfold consGroup.
  destruct (groupRecords rs) as [| [h bs] gs'].
  - intros [<- | []]. cbn. lia.
  - destruct (Nat.eqb (sn_addr r.1) (sn_addr h)).
    + intros [<- | Hin]; cbn.
      * specialize (IH (h, bs) (or_introl eq_refl)). cbn in IH. lia.
      * specialize (IH g (or_intror Hin)). lia.
    + intros [<- | Hin]; cbn; [lia |]. specialize (IH g Hin). lia.
Qed.

(** ** Text mode *)

Lemma outputs_app ev1 ev2 : outputs (ev1 ++ ev2) = outputs ev1 ++ outputs ev2.
Proof. apply List.filter_app. Qed.

Lemma outputs_texts ev :
  Forall (fun e => isLoad e = false /\ isPrint e = false) ev ->
  outputs ev = ev.
Proof.
  induction 1 as [| e ev [Hl Hp] _ IH]; [done |].
  unfold outputs in *. cbn [List.filter]. by rewrite Hl, Hp, IH.
Qed.

Lemma listing_snoc gs g :
  gs <> [] -> listing (gs ++ [g]) = listing gs ++ EvVerbosef nl :: groupLines g.
Proof.
  destruct gs as [| g0 gs]; [done |]. intros _. cbn [app listing].
  rewrite flat_map_app. cbn [flat_map]. by rewrite app_nil_r, <- app_assoc.
Qed.

Lemma listing_more gs h bs l :
  listing (gs ++ [(h, bs ++ [l])]) = listing (gs ++ [(h, bs)]) ++ [EvPrintf l].
Proof.
  assert (Hg : groupLines (h, bs ++ [l]) = groupLines (h, bs) ++ [EvPrintf l]).
  { unfold groupLines. cbn [fst snd]. by rewrite map_app. }
  destruct gs as [| g0 gs].
  - cbn [app listing flat_map]. by rewrite !app_nil_r.
  - rewrite !listing_snoc by done. rewrite Hg, <- app_assoc. done.
Qed.

Section TextMode.
Context `{Lib}.

Lemma lines_app long ev1 ev2 :
  lines long (ev1 ++ ev2) = lines long ev1 ++ lines long ev2.
Proof.
  induction ev1 as [| e ev1 IH]; [done |].
  destruct e as [| p n [s |] | | |]; cbn; by rewrite ?IH.
Qed.

Lemma lines_texts long ev :
  Forall (fun e => isLoad e = false /\ isPrint e = false) ev ->
  lines long ev = [].
Proof. induction 1 as [| [] ev [? ?] _ IH]; cbn in *; done. Qed.

(** One call of [PrintNormal] under the current snapshot [sn]. *)
Lemma PrintNormal_listed long o prefix node sn rs outs :
  newsn o = Some sn -> listed long o rs outs ->
  exists o' pev,
    PrintNormal o prefix node = Some (o', pev) /\
    newsn o' = Some sn /\
    listed long o'
      (rs ++ [(sn, Sprintf0 (formatNode prefix node long +:+ nl))])
      (outs ++ pev).
Proof.
  intros Hn (Hj & Hl & -> & Ho). unfold PrintNormal, listed.
  rewrite Hn, Hl, groupRecords_snoc.
  destruct (snoc_case (groupRecords rs)) as [E | (gs & [h bs] & E)];
    rewrite E in *.
  - cbn [rev] in Ho. rewrite Ho. cbn [rev same_sn negb].
    eexists _, _. split; [reflexivity |]. split; [done |]. by repeat split.
  - rewrite rev_unit in Ho. rewrite Ho, snocGroup_last. cbn [same_sn fst snd].
    destruct (Nat.eqb (sn_addr sn) (sn_addr h)); cbn [negb].
    + eexists _, _. split; [reflexivity |]. split; [done |].
      split; [done |]. split; [done |]. split.
      * by rewrite listing_more.
      * by rewrite rev_unit.
    + set (l := Sprintf0 (formatNode prefix node long +:+ nl)).
      assert (Hsplit : gs ++ [(h, bs); (sn, [l])]
                       = (gs ++ [(h, bs)]) ++ [(sn, [l])])
        by (by rewrite <- app_assoc).
      rewrite Hsplit.
      eexists _, _. split; [reflexivity |]. split; [by cbn |].
      split; [by cbn |]. split; [by cbn |]. cbn [oldsn set_oldsn]. split.
      * rewrite (listing_snoc (gs ++ [(h, bs)]) (sn, [l])); [reflexivity |].
        intros Hnil. by apply app_eq_nil in Hnil as [_ [=]].
      * by rewrite rev_unit.
Qed.

Lemma SinkRun_listed long o ev o' :
  SinkRun o ev o' ->
  forall sn rs outs,
    newsn o = Some sn -> listed long o rs outs ->
    listed long o' (rs ++ lines long ev) (outs ++ outputs ev).
Proof.
  induction 1 as [o | o id ev o' _ IH | o prefix node o1 pev ev o' Hp _ IH
                  | o prefix node ev o' Hp _ IH];
    intros sn rs outs Hn Hl.
  - by rewrite !app_nil_r.
  - by apply (IH sn).
  - assert (Hj : JSON o = false) by apply Hl.
    pose proof (Print_events _ _ _ _ _ Hp) as Htexts.
    unfold Print in Hp. rewrite Hj in Hp.
    destruct (PrintNormal_listed long o prefix node sn rs outs Hn Hl)
      as (o2 & pev2 & Hp2 & Hn2 & Hl2).
    rewrite Hp in Hp2. injection Hp2 as <- <-.
    specialize (IH sn _ _ Hn2 Hl2).
    rewrite Hn. cbn [lines outputs List.filter isLoad isPrint negb andb].
    fold (outputs (pev ++ ev)).
    rewrite lines_app, (lines_texts long pev Htexts), outputs_app,
      (outputs_texts pev Htexts). cbn [app].
    by rewrite <- !app_assoc in IH.
  - assert (Hj : JSON o = false) by apply Hl.
    unfold Print in Hp. rewrite Hj in Hp.
    destruct (PrintNormal_listed long o prefix node sn rs outs Hn Hl)
      as (o2 & pev2 & Hp2 & _). congruence.
Qed.

Lemma findInSnapshots_listed long fuel sns : forall f rs outs,
  listed long (out f) rs outs ->
  let x := findInSnapshots fuel sns f in
  listed long (out x.1.2) (rs ++ lines long x.2) (outs ++ outputs x.2).
Proof.
  induction sns as [| sn rest IH]; intros f rs outs Hl; cbn zeta.
  { cbn. by rewrite !app_nil_r. }
  cbn [findInSnapshots]. rewrite bind_eq.
  pose proof (findInSnapshot_traversal fuel sn f) as Ht. unfold holds in Ht.
  destruct (findInSnapshot fuel sn f) as [[r1 f1] ev1]. cbn [fst snd] in Ht.
  destruct Ht as (_ & _ & _ & Hrun). cbn [out set_out] in Hrun.
  assert (Hl0 : listed long (set_newsn (out f) (Some sn)) rs outs) by exact Hl.
  pose proof (SinkRun_listed long _ _ _ Hrun sn rs outs eq_refl Hl0) as Hl1.
  destruct r1 as [[] | x]; [| exact Hl1].
  specialize (IH f1 _ _ Hl1). cbn zeta in IH.
  destruct (findInSnapshots fuel rest f1) as [[r2 f2] ev2]. cbn [fst snd] in *.
  by rewrite lines_app, outputs_app, !app_assoc.
Qed.

(** X8: in text mode, what a run writes is the listing of its matches
    grouped by snapshot, whether the run ends normally or is stopped: for
    each snapshot with a match one header followed by one line per match
    in the order found, a blank line between two such groups, and nothing
    else, in particular nothing for a snapshot without a match and
    nothing at the end. *)
Theorem text_listing fuel opts gopts args :
  optJSON gopts = false ->
  let ev := (runFind fuel opts gopts args).2 in
  outputs ev = listing (groupRecords (lines (optListLong opts) ev)).
Proof.
  intros Hjson. unfold runFind.
  destruct (makePattern opts args) as [p |]; [| done].
  destruct (openAndLock gopts) as [r |]; [| done].
  set (f := newFinder r p opts gopts).
  assert (Hl : listed (optListLong opts) (out f) [] []).
  { by repeat split. }
  pose proof (findInSnapshots_listed (optListLong opts) fuel
    (FindFilteredSnapshots r (Host opts) (Tags opts) (Paths opts)
       (Snapshots opts)) f [] [] Hl) as Hrun.
  cbn zeta in Hrun.
  destruct (findInSnapshots _ _ f) as [[[[] | x] f'] ev0];
    cbn [fst snd app] in *; destruct Hrun as (Hj & _ & Hout & _); [| done].
  unfold Finish. rewrite Hj. by rewrite app_nil_r.
Qed.

End TextMode.

(** The two snapshots of the scenario under [*.txt], in text mode. *)
Lemma text_listing_witness :
  let ev := (@runFind (ex_lib ex_two_snapshots) 5 ex_opts ex_text ["*.txt"]).2 in
  outputs ev =
  [ EvVerbosef ("Found matching entries in snapshot aaaa" +:+ nl);
    EvPrintf ("/a.txt" +:+ nl);
    EvPrintf ("/sub/b.txt" +:+ nl);
    EvVerbosef nl;
    EvVerbosef ("Found matching entries in snapshot bbbb" +:+ nl);
    EvPrintf ("/sub/b.txt" +:+ nl) ].
Proof.
  intros ev. subst ev.
  rewrite (@text_listing (ex_lib ex_two_snapshots) 5 ex_opts ex_text
             ["*.txt"] eq_refl).
  vm_compute. reflexivity.
Defined.

(** ** Structured mode *)

Section StructuredMode.
Context `{Lib}.

Lemma records_app ev1 ev2 : records (ev1 ++ ev2) = records ev1 ++ records ev2.
Proof.
  induction ev1 as [| e ev1 IH]; [done |].
  destruct e as [| p n [s |] | | |]; cbn; rewrite ?IH; try done.
  by destruct (Marshal _ _ _).
Qed.

Lemma records_texts ev :
  Forall (fun e => isLoad e = false /\ isPrint e = false) ev ->
  records ev = [].
Proof. induction 1 as [| [] ev [? ?] _ IH]; cbn in *; done. Qed.

Lemma document_snoc gs g :
  document (gs ++ [g]) =
  "[" +:+ String.concat EmptyString (map (fun g' => groupText g' +:+ ",") gs)
      +:+ groupText g +:+ "]" +:+ nl.
Proof.
  assert (Hdoc : document (gs ++ [g]) =
    "[" +:+ String.concat "," (map groupText (gs ++ [g])) +:+ "]" +:+ nl).
  { unfold document. destruct (gs ++ [g]) eqn:E; [| done].
    by apply app_eq_nil in E as [_ [=]]. }
  rewrite Hdoc, map_app. cbn [map].
  rewrite concat_sep_snoc, map_map, !string_app_assoc. done.
Qed.

Lemma bump_positive n :
  (0 < n)%nat -> Z.of_nat n < 2 ^ 63 -> (0 <? bump n) = true.
Proof. intros Hn Hb. rewrite bump_small by done. apply Z.ltb_lt. lia. Qed.

(** One call of [PrintJSON] under the current snapshot [sn], for a match
    that is rendered as [b]. *)
Lemma PrintJSON_streamed o prefix node sn b rs text :
  Marshal (Join prefix (Name node)) (ModeString (Mode node)) node = Ok b ->
  newsn o = Some sn -> streamed o rs text ->
  Z.of_nat (length rs) < 2 ^ 63 ->
  newsn (PrintJSON o prefix node).1 = Some sn /\
  streamed (PrintJSON o prefix node).1 (rs ++ [(sn, Sprintf0 b)])
    (text +:+ String.concat EmptyString (printed (PrintJSON o prefix node).2)).
Proof.
  intros Hm Hn [Hj Hst] Hbound. rewrite (PrintJSON_ok o prefix node b Hm).
  cbn zeta. rewrite Hn. unfold streamed. rewrite groupRecords_snoc.
  destruct Hst as [(-> & Hi & Ho & ->) | (gs & h & bs & E & Hne & Hi & Ho & Hh & ->)];
    rewrite Ho, Hi.
  - cbn [same_sn fst snd]. split; [done |]. split; [done |]. right.
    exists [], sn, [Sprintf0 b]. by repeat split.
  - rewrite E, snocGroup_last. cbn [same_sn fst snd].
    assert (Hlen : (length bs <= length rs)%nat).
    { apply (group_size rs (h, bs)). rewrite E. apply in_or_app. right. by left. }
    assert (Hsmall : bump (length bs) = Z.of_nat (length bs))
      by (apply bump_small; lia).
    destruct (Nat.eqb (sn_addr sn) (sn_addr h)); cbn [fst snd].
    + split; [done |]. split; [done |]. right.
      exists gs, h, (bs ++ [Sprintf0 b]).
      split; [done |]. split; [by destruct bs |]. split; [done |].
      split; [done |]. split.
      { cbn [hits set_hits]. rewrite Hh, length_app, Nat.add_1_r. done. }
      rewrite Hh, bump_positive; [| destruct bs; [done | cbn; lia] | lia].
      cbn [app printed]. rewrite concat_snoc by done.
      rewrite !concat_nil_cons, !string_app_assoc. cbn [String.concat].
      by rewrite string_app_nil_r.
    + split; [done |]. split; [done |]. right.
      exists (gs ++ [(h, bs)]), sn, [Sprintf0 b].
      split; [by rewrite <- app_assoc |]. split; [done |]. split; [done |].
      split; [done |]. split; [done |].
      cbn [app printed]. rewrite map_app, concat_nil_app. cbn [map].
      unfold groupText. cbn [fst snd]. rewrite Hh, Hsmall.
      rewrite !concat_nil_cons, !string_app_assoc. cbn [String.concat].
      by rewrite !string_app_nil_r.
Qed.

Lemma SinkRun_streamed o ev o' :
  SinkRun o ev o' ->
  forall sn rs text,
    newsn o = Some sn -> streamed o rs text ->
    Z.of_nat (length (rs ++ records ev)) < 2 ^ 63 ->
    newsn o' = Some sn /\
    streamed o' (rs ++ records ev)
      (text +:+ String.concat EmptyString (printed ev)).
Proof.
  induction 1 as [o | o id ev o' _ IH | o prefix node o1 pev ev o' Hp _ IH
                  | o prefix node ev o' Hp _ IH];
    intros sn rs text Hn Hst Hbound.
  - cbn. by rewrite app_nil_r, string_app_nil_r.
  - by apply (IH sn).
  - assert (Hj : JSON o = true) by apply Hst.
    pose proof (Print_events _ _ _ _ _ Hp) as Htexts.
    unfold Print in Hp. rewrite Hj in Hp. injection Hp as Hp.
    rewrite Hn in *. cbn [records printed] in *. fold (printed (pev ++ ev)).
    rewrite records_app, (records_texts pev Htexts) in *. cbn [app] in *.
    rewrite printed_app, concat_nil_app.
    destruct (Marshal _ _ _) as [b | err] eqn:Hm.
    + assert (Hb1 : Z.of_nat (length rs) < 2 ^ 63)
        by (rewrite length_app in Hbound; lia).
      pose proof (PrintJSON_streamed o prefix node sn b rs text Hm Hn Hst Hb1)
        as [Hn1 Hst1].
      rewrite Hp in Hn1, Hst1. cbn [fst snd] in Hn1, Hst1.
      assert (Hb2 : Z.of_nat (length ((rs ++ [(sn, Sprintf0 b)]) ++ records ev))
                    < 2 ^ 63) by (by rewrite <- app_assoc).
      destruct (IH sn _ _ Hn1 Hst1 Hb2) as [Hn' Hst'].
      split; [done |]. by rewrite <- app_assoc, string_app_assoc in Hst'.
    + unfold PrintJSON in Hp. rewrite Hm in Hp. injection Hp as <- <-.
      cbn [printed String.concat].
      change (String.append EmptyString ?x) with x.
      by apply (IH sn).
  - assert (Hj : JSON o = true) by apply Hst.
    unfold Print in Hp. by rewrite Hj in Hp.
Qed.

Lemma findInSnapshots_streamed fuel sns : forall f rs text,
  streamed (out f) rs text ->
  let x := findInSnapshots fuel sns f in
  Z.of_nat (length (rs ++ records x.2)) < 2 ^ 63 ->
  streamed (out x.1.2) (rs ++ records x.2)
    (text +:+ String.concat EmptyString (printed x.2)).
Proof.
  induction sns as [| sn rest IH]; intros f rs text Hst; cbn zeta.
  { cbn. by rewrite app_nil_r, string_app_nil_r. }
  cbn [findInSnapshots]. rewrite bind_eq.
  pose proof (findInSnapshot_traversal fuel sn f) as Ht. unfold holds in Ht.
  destruct (findInSnapshot fuel sn f) as [[r1 f1] ev1]. cbn [fst snd] in Ht.
  destruct Ht as (_ & _ & _ & Hrun). cbn [out set_out] in Hrun.
  assert (Hst0 : streamed (set_newsn (out f) (Some sn)) rs text) by exact Hst.
  destruct r1 as [[] | x].
  - specialize (IH f1). cbn zeta in IH.
    destruct (findInSnapshots fuel rest f1) as [[r2 f2] ev2].
    cbn [fst snd] in *. rewrite records_app, printed_app, concat_nil_app.
    intros Hbound.
    assert (Hb1 : Z.of_nat (length (rs ++ records ev1)) < 2 ^ 63).
    { rewrite !length_app in *. lia. }
    destruct (SinkRun_streamed _ _ _ Hrun sn rs text eq_refl Hst0 Hb1)
      as [_ Hst1].
    rewrite app_assoc, <- string_app_assoc. apply IH; [done |].
    by rewrite <- app_assoc.
  - cbn [fst snd]. intros Hbound.
    by apply (SinkRun_streamed _ _ _ Hrun sn rs text eq_refl Hst0).
Qed.


End StructuredMode.


(** * Failing loads *)

Section Loads.
Context `{Lib}.

Lemma loadFatal_quiet {A} f (r : A + abort) f' ev :
  repo f' = repo f -> Forall (fun e => isLoad e = false) ev ->
  loadFatal f (r, f', ev).
Proof.
  intros Hr Hev. split; [done |]. intros id e Hin _. exfalso.
  rewrite List.Forall_forall in Hev. by specialize (Hev _ Hin).
Qed.

Lemma loadFatal_bind {A B} (m : M A) (k : A -> M B) f :
  loadFatal f (m f) ->
  (forall a f1 ev1, m f = (inl a, f1, ev1) -> loadFatal f1 (k a f1)) ->
  loadFatal f ((m ≫= k) f).
Proof.
  unfold loadFatal, endsAtLoad. rewrite bind_eq. intros [Hr Hm] Hk.
  destruct (m f) as [[[a | x] f1] ev1]; cbn [fst snd] in *; cycle 1.
  { split; [done |]. intros id e Hin Hload.
    destruct (Hm id e Hin Hload) as [[= ->] Hev]. by split. }
  specialize (Hk a f1 ev1 eq_refl). destruct Hk as [Hr2 Hk].
  destruct (k a f1) as [[r2 f2] ev2]. cbn [fst snd] in *.
  split; [cbn [fst snd]; congruence |]. cbn [fst snd].
  intros id e Hin Hload. apply in_app_or in Hin as [Hin | Hin].
  - by destruct (Hm id e Hin Hload) as [[=] _].
  - rewrite <- Hr in Hload. destruct (Hk id e Hin Hload) as [-> [ev0 ->]].
    split; [done |]. exists (ev1 ++ ev0). cbn. by rewrite app_assoc.
Qed.

Lemma loadFatal_print prefix node f : loadFatal f (callPrint prefix node f).
Proof.
  rewrite callPrint_eq.
  destruct (Print (out f) prefix node) as [[o pev] |] eqn:Hp.
  - apply loadFatal_quiet; [done |]. constructor; [done |].
    eapply Forall_impl; [exact (Print_events _ _ _ _ _ Hp) |]. by intros e [? _].
  - apply loadFatal_quiet; [done |]. by repeat constructor.
Qed.

Lemma loadFatal_descend rec prefix node f :
  (forall sub p f, loadFatal f (rec sub p f)) ->
  loadFatal f (descend rec prefix node f).
Proof.
  intros Hrec. unfold descend.
  destruct (String.eqb _ _); [| by apply loadFatal_quiet].
  destruct (Subtree node); [apply Hrec | by apply loadFatal_quiet].
Qed.

Lemma scanNodes_loadFatal rec prefix :
  (forall sub p f, loadFatal f (rec sub p f)) ->
  forall nodes found f, loadFatal f (scanNodes rec prefix nodes found f).
Proof.
  intros Hrec. induction nodes as [| node rest IH]; intros found f.
  { by apply loadFatal_quiet. }
  cbn [scanNodes]. rewrite get_bind, try_bind.
  destruct (testEntry (pat f) node) as [[] | err];
    [| apply IH | | by apply loadFatal_quiet].
  - apply loadFatal_bind; [by apply loadFatal_descend |].
    intros _ f1 ev1 _. apply IH.
  - apply loadFatal_bind; [apply loadFatal_print |]. intros _ f1 ev1 _.
    apply loadFatal_bind; [by apply loadFatal_descend |].
    intros _ f2 ev2 _. apply IH.
Qed.

Lemma findInTree_loadFatal fuel : forall treeID prefix f,
  loadFatal f (findInTree fuel treeID prefix f).
Proof.
  induction fuel as [| fuel IH]; intros treeID prefix f.
  { by apply loadFatal_quiet. }
  cbn [findInTree]. rewrite get_bind.
  destruct (decide (treeID ∈ notfound f)); [by apply loadFatal_quiet |].
  rewrite emit_bind, try_bind.
  destruct (LoadTree (repo f) treeID) as [tree | err] eqn:Hload.
  - pose proof (loadFatal_bind
      (scanNodes (findInTree fuel) prefix (Nodes tree) false)
      (fun found : bool =>
         if found then mret tt
         else f' ← get; put (set_notfound f' ({[treeID]} ∪ notfound f'))) f
      (scanNodes_loadFatal _ prefix IH _ _ _)) as Hrest.
    destruct ((scanNodes (findInTree fuel) prefix (Nodes tree) false ≫= _) f)
      as [[r2 f2] ev2].
    destruct Hrest as [Hr Hrest].
    { intros [] f1 ev1 _; [by apply loadFatal_quiet |].
      rewrite get_bind. by apply loadFatal_quiet. }
    unfold endsAtLoad in *. cbn [fst snd] in *.
    split; [done |]. cbn [fst snd]. intros id e [[= <-] | Hin] Hl.
    + congruence.
    + destruct (Hrest id e Hin Hl) as [-> [ev0 ->]]. split; [done |].
      by exists (EvLoadTree treeID :: ev0).
  - split; [done |]. unfold endsAtLoad. cbn [fst snd].
    intros id e [[= <-] | []] Hl. split; [congruence |]. by exists [].
Qed.

Lemma findInSnapshots_loadFatal fuel sns : forall f,
  loadFatal f (findInSnapshots fuel sns f).
Proof.
  induction sns as [| sn rest IH]; intros f; [by apply loadFatal_quiet |].
  cbn [findInSnapshots]. apply loadFatal_bind; [| intros _ f1 ev1 _; apply IH].
  unfold findInSnapshot. rewrite get_bind, put_bind.
  destruct (sn_Tree sn) as [root |]; [| by apply loadFatal_quiet].
  exact (findInTree_loadFatal fuel root sep
           (set_out f (set_newsn (out f) (Some sn)))).
Qed.

(** X9: a tree that cannot be loaded ends the run.  When the run has
    asked the repository for a tree that the repository fails to load,
    the run returns that very error, and asking for the tree is the last
    thing it did: no later entry or snapshot is looked at, nothing more is
    written, and [Finish] is not called. *)
Theorem failed_load_ends_the_run fuel opts gopts args repo id e :
  openAndLock gopts = Ok repo ->
  LoadTree repo id = Err e ->
  let x := runFind fuel opts gopts args in
  In (EvLoadTree id) x.2 ->
  x.1 = inr (Failed e) /\ exists ev0, x.2 = ev0 ++ [EvLoadTree id].
Proof.
  intros Hopen Hload. unfold runFind. rewrite Hopen.
  destruct (makePattern opts args) as [p |]; [| intros []].
  set (f := newFinder repo p opts gopts).
  destruct (findInSnapshots_loadFatal fuel
    (FindFilteredSnapshots repo (Host opts) (Tags opts) (Paths opts)
       (Snapshots opts)) f) as [_ Hrun].
  destruct (findInSnapshots _ _ f) as [[[[] | x] f'] ev0];
    cbn [fst snd] in *; intros Hin.
  - exfalso. apply in_app_or in Hin as [Hin | Hin].
    + by destruct (Hrun id e Hin Hload) as [[=] _].
    + assert (Hfin : Forall (fun e => isLoad e = false) (Finish (out f'))).
      { unfold Finish.
        destruct (JSON (out f')), (oldsn (out f')), (inuse (out f'));
          repeat constructor. }
      rewrite List.Forall_forall in Hfin. by specialize (Hfin _ Hin).
  - destruct (Hrun id e Hin Hload) as [[= ->] Hev]. by split.
Qed.

End Loads.

Lemma failed_load_ends_the_run_witness :
  let x := @runFind (ex_lib ex_dangling) 5 ex_opts ex_json ["*.txt"] in
  In (EvLoadTree 9%N) x.2 /\
  x.1 = inr (Failed (ErrOther "tree not found in repository")) /\
  exists ev0, x.2 = ev0 ++ [EvLoadTree 9%N].
Proof.
  intros x.
  assert (Hin : In (EvLoadTree 9%N) x.2).
  { vm_compute. repeat (first [left; reflexivity | right]). }
  split; [exact Hin |].
  exact (@failed_load_ends_the_run (ex_lib ex_dangling) 5 ex_opts ex_json
           ["*.txt"] (storeOf ex_objects) 9%N
           (ErrOther "tree not found in repository") eq_refl eq_refl Hin).
Defined.

(** * Every match of a visited tree is reported *)

Section Completeness.
Context `{Lib}.

Lemma scanNodes_prints fuel prefix :
  forall nodes found f b f' ev,
    scanNodes (findInTree fuel) prefix nodes found f = (inl b, f', ev) ->
    forall node,
      In node nodes -> testEntry (pat f) node = Ok Accepted ->
      In (EvPrint prefix node (newsn (out f))) ev.
Proof.
  induction nodes as [| head rest IH];
    intros found f b f' ev Heq node Hin Hacc; [done |].
  cbn [scanNodes] in Heq. rewrite get_bind, try_bind in Heq.
  assert (Hstep : forall found1 f1 ev2,
    pat f1 = pat f -> newsn (out f1) = newsn (out f) ->
    (descend (findInTree fuel) prefix head;;
     scanNodes (findInTree fuel) prefix rest found1) f1 = (inl b, f', ev2) ->
    In node rest -> In (EvPrint prefix node (newsn (out f))) ev2).
  { intros found1 f1 ev2 Hp1 Hn1 Hrun Hrest.
    apply bind_inv in Hrun
      as [(x & _ & [=]) | ([] & f2 & ev3 & ev4 & Hd & Hs & ->)].
    pose proof (descend_traversal (findInTree fuel) prefix head f1
      (fun s p g => findInTree_traversal fuel s p g)) as Ht.
    unfold holds in Ht. rewrite Hd in Ht. cbn [fst snd] in Ht.
    destruct Ht as (_ & Hp2 & _ & Hrun2). apply SinkRun_newsn in Hrun2.
    apply in_or_app. right. rewrite <- Hn1, <- Hrun2.
    apply (IH found1 f2 b f' ev4 Hs node Hrest). by rewrite Hp2, Hp1. }
  destruct (testEntry (pat f) head) as [[| |] | err] eqn:Htest;
    [| | | discriminate].
  - destruct Hin as [-> | Hin]; [congruence |].
    by apply (Hstep found f ev).
  - destruct Hin as [-> | Hin]; [congruence |].
    by apply (IH found f b f' ev Heq node).
  - apply bind_inv in Heq
      as [(x & _ & [=]) | ([] & f1 & ev1 & ev2 & Hprint & Hrun & ->)].
    pose proof (traversal_print _ _ _ _ _ _ Hprint) as (_ & Hp1 & _ & Hrun1).
    apply SinkRun_newsn in Hrun1. apply in_or_app.
    destruct Hin as [-> | Hin].
    + left. rewrite callPrint_eq in Hprint.
      destruct (Print (out f) prefix node) as [[o pev] |]; [| discriminate].
      injection Hprint as _ <-. by left.
    + right. by apply (Hstep true f1 ev2).
Qed.

(** X10: in a completed visit of a tree, every entry of the tree that
    the criteria accept has been handed to the sink, under the prefix of
    the visit and for the snapshot being searched. *)
Theorem matches_are_reported fuel id prefix f f' ev tree node :
  findInTree fuel id prefix f = (inl tt, f', ev) ->
  id ∉ notfound f ->
  LoadTree (repo f) id = Ok tree ->
  In node (Nodes tree) ->
  testEntry (pat f) node = Ok Accepted ->
  In (EvPrint prefix node (newsn (out f))) ev.
Proof.
  destruct fuel as [| fuel]; [discriminate |].
  cbn [findInTree]. rewrite get_bind. intros Heq Hnin Hload Hin Hacc.
  destruct (decide (id ∈ notfound f)); [done |].
  rewrite emit_bind, try_bind, Hload in Heq.
  destruct ((scanNodes (findInTree fuel) prefix (Nodes tree) false ≫= _) f)
    as [[r2 f2] ev2] eqn:Hrun.
  injection Heq as -> -> <-.
  apply bind_inv in Hrun
    as [(x & _ & [=]) | (b & f1 & ev3 & ev4 & Hs & _ & ->)].
  right. apply in_or_app. left.
  by apply (scanNodes_prints fuel prefix _ _ _ _ _ _ Hs node).
Qed.

End Completeness.

(** Tree 2 under [*.txt], visited below [/sub] for the snapshot [aaaa]:
    its entry [b.txt] is reported. *)
Lemma matches_are_reported_witness :
  let sn := ex_snapshot 1 "aaaa" 1%N in
  let f0 := ex_finder (mkFindPattern 0 0 "*.txt" false) false in
  let f := set_out f0 (set_newsn (out f0) (Some sn)) in
  let x := @findInTree (ex_lib []) 5 2%N "/sub" f in
  In (EvPrint "/sub" (file "b.txt" date_2021_06_01) (Some sn)) x.2.
Proof.
  intros sn f0 f x.
  apply (@matches_are_reported (ex_lib []) 5 2%N "/sub" f x.1.2 x.2 ex_T2
           (file "b.txt" date_2021_06_01)).
  - vm_compute. reflexivity.
  - apply not_elem_of_empty.
  - reflexivity.
  - by left.
  - vm_compute. reflexivity.
Defined.

(** Two arguments are one too many; [soon] is a date in no layout. *)
Lemma configuration_errors_witness :
  @runFind (ex_lib []) 5 ex_opts ex_json ["a"; "b"] =
    (inr (Failed (Fatal "wrong number of arguments")), []) /\
  @runFind (ex_lib []) 5
     (mkFindOptions "soon" EmptyString [] false false EmptyString [] [])
     ex_json ["*.txt"] =
    (inr (Failed (Fatal ("unable to parse time: " +:+ quoteString "soon"))),
     []).
Proof.
  split.
  - apply (proj1 (@configuration_errors (ex_lib []) 5 ex_opts ex_json
                    ["a"; "b"])).
    discriminate.
  - apply (proj1 (proj2 (@configuration_errors (ex_lib []) 5
                    (mkFindOptions "soon" EmptyString [] false false
                       EmptyString [] [])
                    ex_json ["*.txt"]) eq_refl)).
    vm_compute. reflexivity.
Defined.
